(** * The feed pipeline of [scripts/fetch_feeds.mjs]

    A shallow embedding of the ingestion script: text cleaning and
    truncation, the FNV-1a item identifier, URL canonicalisation, keyword
    gating, rule-based tagging, the per-feed loop with its error records,
    URL deduplication, ranking and the two output writes.

    JavaScript strings are sequences of UTF-16 code units, so a string is a
    list of integers here; numbers that the script treats as 32-bit integers
    are integers with the wrap-around written out. *)

From Stdlib Require Import ZArith String Ascii.
From stdpp Require Import ssreflect base numbers option list sorting.

(** ** JavaScript strings and arrays *)

Module JS.

(** A string is its sequence of UTF-16 code units ([charCodeAt]). *)
Definition jsstring : Type := list Z.

(** A literal from the Basic Latin range: one code unit per character. *)
Definition lit (s : string) : jsstring :=
  (λ a, Z.of_nat (nat_of_ascii a)) <$> list_ascii_of_string s.

Definition eqb (a b : jsstring) : bool := bool_decide (a = b).

(** Truthiness of a possibly absent string: [undefined], [null] and the
    empty string are falsy. *)
Definition truthy (o : option jsstring) : bool :=
  match o with
  | Some (_ :: _) => true
  | _ => false
  end.

(** [a || b] on possibly absent strings. *)
Definition or (a b : option jsstring) : option jsstring :=
  if truthy a then a else b.

(** [a || ''] *)
Definition or_empty (a : option jsstring) : jsstring :=
  match a with
  | Some (c :: s) => c :: s
  | _ => []
  end.

(** [Array.prototype.slice] and [String.prototype.slice] for integer
    arguments: a negative index counts from the end, and both indices are
    clamped to the length. *)
Definition rel_index (len i : Z) : Z :=
  if (i <? 0)%Z then Z.max (len + i) 0 else Z.min i len.

Definition slice {A} (l : list A) (start stop : Z) : list A :=
  let len := Z.of_nat (length l) in
  let from := rel_index len start in
  let to := rel_index len stop in
  take (Z.to_nat (to - from)) (drop (Z.to_nat from) l).

(** White space and line terminators, as [trim] and the pattern class
    [\s] understand them. *)
Definition is_ws (c : Z) : bool :=
  ((9 <=? c) && (c <=? 13) || (c =? 32) || (c =? 160) || (c =? 0x1680)
   || (0x2000 <=? c) && (c <=? 0x200A)
   || (c =? 0x2028) || (c =? 0x2029) || (c =? 0x202F) || (c =? 0x205F)
   || (c =? 0x3000) || (c =? 0xFEFF))%Z.

Fixpoint trimStart (s : jsstring) : jsstring :=
  match s with
  | c :: s' => if is_ws c then trimStart s' else s
  | [] => []
  end.

Definition trimEnd (s : jsstring) : jsstring :=
  reverse (trimStart (reverse s)).

Definition trim (s : jsstring) : jsstring := trimEnd (trimStart s).

(** [p] is an initial segment of [s]. *)
Fixpoint startsWith (p s : jsstring) : bool :=
  match p, s with
  | [], _ => true
  | a :: p', b :: s' => (a =? b)%Z && startsWith p' s'
  | _ :: _, [] => false
  end.

(** [String.prototype.includes]: [n] occurs somewhere in [h]. *)
Fixpoint includes (h n : jsstring) : bool :=
  startsWith n h ||
  match h with
  | [] => false
  | _ :: h' => includes h' n
  end.

(** Position of the first occurrence of [n] in [h], if any. *)
Fixpoint indexOf (h n : jsstring) : option nat :=
  if startsWith n h then Some O
  else match h with
       | [] => None
       | _ :: h' => S <$> indexOf h' n
       end.

(** 32-bit integer conversions of the language. *)
Definition toInt32 (z : Z) : Z := ((z + 2 ^ 31) mod 2 ^ 32 - 2 ^ 31)%Z.
Definition toUint32 (z : Z) : Z := (z mod 2 ^ 32)%Z.

(** [a ^ b] *)
Definition xor (a b : Z) : Z := toInt32 (Z.lxor (toInt32 a) (toInt32 b)).

(** [Math.imul(a, b)] *)
Definition imul (a b : Z) : Z := toInt32 (toUint32 a * toUint32 b).

(** [a >>> 0] *)
Definition ushr0 (a : Z) : Z := toUint32 a.

(** One digit of [Number.prototype.toString(radix)], lower case. *)
Definition digit (d : Z) : Z := (if d <? 10 then 48 + d else 87 + d)%Z.

Fixpoint digits (fuel : nat) (radix n : Z) (acc : jsstring) : jsstring :=
  match fuel with
  | O => acc
  | S fuel' =>
      let acc' := digit (n mod radix) :: acc in
      if (n / radix =? 0)%Z then acc' else digits fuel' radix (n / radix)%Z acc'
  end.

(** [n.toString(radix)] for a non-negative integer [n]. *)
Definition toStringRadix (radix n : Z) : jsstring :=
  digits (S (Z.to_nat (Z.log2 n))) radix n [].

(** [s.padStart(n, c)] with a one-unit filler. *)
Definition padStart (n : nat) (c : Z) (s : jsstring) : jsstring :=
  replicate (n - length s) c ++ s.

(** UTF-16 surrogate code units, and strings in which every surrogate is
    half of a pair. *)
Definition is_high (c : Z) : bool := ((0xD800 <=? c) && (c <=? 0xDBFF))%Z.
Definition is_low (c : Z) : bool := ((0xDC00 <=? c) && (c <=? 0xDFFF))%Z.

Fixpoint well_formed (s : jsstring) : bool :=
  match s with
  | [] => true
  | c :: s' =>
      if is_high c then
        match s' with
        | d :: s'' => is_low d && well_formed s''
        | [] => false
        end
      else negb (is_low c) && well_formed s'
  end.

End JS.

Export JS.

(** ** What the script's patterns need of the regular-expression engine

    Every pattern of the script is built from literal text in the Basic
    Latin range, the word boundary [\b], the classes [[^<]], [[^>]] and
    [\s], a lazy [.*?] and alternation, under the flags [g], [s] and [i].
    This module gives those pieces directly. *)

Module Re.

(** Canonical form of a code unit under the [i] flag, sufficient for
    comparing with a Basic Latin pattern character: a letter of that range
    is folded to upper case, and a unit outside the range never
    canonicalises into it. *)
Definition canon (c : Z) : Z :=
  (if (97 <=? c) && (c <=? 122) then c - 32 else c)%Z.

Definition ci_eq (c p : Z) : bool := (canon c =? canon p)%Z.

(** The word characters of [\b]: letters, digits and underscore. *)
Definition isWord (c : Z) : bool :=
  ((48 <=? c) && (c <=? 57) || (65 <=? c) && (c <=? 90)
   || (97 <=? c) && (c <=? 122) || (c =? 95))%Z.

Definition isWordO (o : option Z) : bool :=
  match o with
  | Some c => isWord c
  | None => false
  end.

(** [\b] between two neighbouring positions (absent at either end of the
    input). *)
Definition boundary (before after : option Z) : bool :=
  xorb (isWordO before) (isWordO after).

(** Match the literal [p] at the head of [s], ignoring case; the result is
    the last input unit consumed (or [prev] if none) and the rest. *)
Fixpoint ci_match (p s : jsstring) (prev : option Z)
  : option (option Z * jsstring) :=
  match p, s with
  | [], _ => Some (prev, s)
  | a :: p', c :: s' => if ci_eq c a then ci_match p' s' (Some c) else None
  | _ :: _, [] => None
  end.

Definition ci_startsWith (p s : jsstring) : bool :=
  bool_decide (is_Some (ci_match p s None)).

Fixpoint ci_indexOf (h n : jsstring) : option nat :=
  if ci_startsWith n h then Some O
  else match h with
       | [] => None
       | _ :: h' => S <$> ci_indexOf h' n
       end.

(** [String.prototype.replace] with a global pattern that never matches
    the empty string. [m s] tells whether the pattern matches at the head
    of [s], and then the length of the match and its replacement; the scan
    resumes right after each match. *)
Fixpoint replace_go (m : jsstring → option (nat * jsstring))
    (skip : nat) (s : jsstring) : jsstring :=
  match s with
  | [] => []
  | c :: s' =>
      match skip with
      | S k => replace_go m k s'
      | O =>
          match m s with
          | Some (n, r) => r ++ replace_go m (pred n) s'
          | None => c :: replace_go m O s'
          end
      end
  end.

Definition replaceAll (m : jsstring → option (nat * jsstring))
    (s : jsstring) : jsstring :=
  replace_go m O s.

(** One alternative of a tag rule: a literal, optionally fenced by [\b]. *)
Record alt := Alt { wbL : bool; text : jsstring; wbR : bool }.

(** A rule pattern is an alternation, matched under the [i] flag. *)
Definition pattern : Type := list alt.

Definition test_at (prev : option Z) (s : jsstring) (a : alt) : bool :=
  (if wbL a then boundary prev (head s) else true)
  && match ci_match (text a) s prev with
     | Some (lastc, rest) =>
         if wbR a then boundary lastc (head rest) else true
     | None => false
     end.

Fixpoint scan (p : pattern) (prev : option Z) (s : jsstring) : bool :=
  existsb (test_at prev s) p
  || match s with
     | [] => false
     | c :: s' => scan p (Some c) s'
     end.

(** [re.test(s)] for a pattern without the [g] flag. *)
Definition test (p : pattern) (s : jsstring) : bool := scan p None s.

(** Pattern syntax for the rule table. *)
Definition bare (s : string) : alt := Alt false (lit s) false.
Definition word (s : string) : alt := Alt true (lit s) true.

End Re.

(** ** Data model *)

(** A parsed URL as the [URL] class exposes it to the script: everything up
    to the query, the query string ([None] when there is none), the decoded
    name and value pairs behind [searchParams], and the fragment ([None]
    when there is none, [Some []] for a bare [#]). *)
Module URL.

Record t := Make {
  base : jsstring;
  query : option jsstring;
  searchParams : list (jsstring * jsstring);
  fragment : option jsstring
}.

Section methods.
(** The form-urlencoded byte serialiser of the platform. *)
Variable encode : jsstring → jsstring.

Fixpoint serialize (l : list (jsstring * jsstring)) : jsstring :=
  match l with
  | [] => []
  | [(k, v)] => encode k ++ 61%Z :: encode v
  | (k, v) :: l' => encode k ++ 61%Z :: encode v ++ 38%Z :: serialize l'
  end.

(** [u.searchParams.delete(name)]: every pair of that name goes, and
    the query is rewritten from what is left ([None] if nothing is). *)
Definition searchParams_delete (name : jsstring) (u : t) : t :=
  let l := filter (λ kv, kv.1 ≠ name) (searchParams u) in
  let q := serialize l in
  {| base := base u;
     query := match q with [] => None | _ => Some q end;
     searchParams := l;
     fragment := fragment u |}.

(** [[...u.searchParams.keys()]] *)
Definition keys (u : t) : list jsstring := fst <$> searchParams u.

(** [u.search = ''] *)
Definition clear_search (u : t) : t :=
  {| base := base u; query := None; searchParams := [];
     fragment := fragment u |}.

(** [u.hash]: the empty string when the fragment is absent or empty,
    otherwise [#] followed by the fragment. *)
Definition hash (u : t) : jsstring :=
  match fragment u with
  | None | Some [] => []
  | Some f => 35%Z :: f
  end.

(** [u.hash = ''] *)
Definition clear_hash (u : t) : t :=
  {| base := base u; query := query u; searchParams := searchParams u;
     fragment := None |}.

(** [u.toString()] *)
Definition toString (u : t) : jsstring :=
  base u
  ++ match query u with Some q => 63%Z :: q | None => [] end
  ++ match fragment u with Some f => 35%Z :: f | None => [] end.
End methods.

End URL.

(** A raw feed entry: whatever the source sent. *)
Record RawEntry := {
  raw_title : option jsstring;
  raw_link : option jsstring;
  raw_guid : option jsstring;
  (** [links]: [None] when it is not an array; each element's [url] *)
  raw_links : option (list (option jsstring));
  raw_isoDate : option jsstring;
  raw_pubDate : option jsstring;
  raw_published : option jsstring;
  raw_date : option jsstring;
  raw_updated : option jsstring;
  raw_contentSnippet : option jsstring;
  raw_summary : option jsstring;
  raw_content : option jsstring;
  raw_content_encoded : option jsstring
}.

(** The parser's result; [items] is [None] when it is not an array. *)
Record ParsedFeed := { items : option (list RawEntry) }.

(** A thrown value, with its [message] and its [String(e)] rendering. *)
Record Thrown := { message : option jsstring; rendering : jsstring }.

Record Response := {
  ok : bool;
  status : Z;
  statusText : jsstring;
  body : jsstring
}.

Record Keywords := {
  include : option (list jsstring);
  exclude : option (list jsstring)
}.

Record FeedDef := {
  feed_id : jsstring;
  feed_name : jsstring;
  feed_url : jsstring;
  feed_category : option jsstring;
  feed_maxItemsPerFeed : option Z;
  feed_keywords : option Keywords
}.

Record Defaults := {
  maxItemsPerFeed : Z;
  maxTotalItems : Z;
  timeoutMs : Z;
  userAgent : jsstring;
  stripUrlParams : list jsstring
}.

Record Config := { defaults : Defaults; feeds : list FeedDef }.

Record NormalizedItem := {
  id : jsstring;
  title : jsstring;
  url : option jsstring;
  source : jsstring;
  sourceId : jsstring;
  category : jsstring;
  tags : list jsstring;
  published : jsstring;
  summary : jsstring
}.

Record FeedErrorRecord := {
  err_id : jsstring;
  err_name : jsstring;
  err_url : jsstring;
  err_error : jsstring
}.

Record RunMetadata := {
  generatedAt : jsstring;
  feedCount : nat;
  itemCount : nat;
  errors : list FeedErrorRecord
}.

(** ** The platform

    The built-in and library functions the script calls and does not
    define. Theorems hold for every platform; a small concrete one further
    down serves for examples. *)
Class Host := {
  (** [String.prototype.toLowerCase] *)
  toLowerCase : jsstring → jsstring;
  (** [Date.parse]; [None] is [NaN] *)
  Date_parse : jsstring → option Z;
  (** [new Date(t).toISOString()] *)
  Date_toISOString : Z → jsstring;
  (** [new URL(s)]; [None] when it throws *)
  URL_parse : jsstring → option URL.t;
  URL_encode : jsstring → jsstring;
  (** [fetch] of a URL under a time limit and user agent: a thrown value
      (network failure, abort on time-out) or a response *)
  fetch : jsstring → Z → jsstring → Thrown + Response;
  (** [parser.parseString] of the rss-parser package *)
  Parser_parseString : jsstring → Thrown + ParsedFeed
}.

(** ** The script *)

Section script.
Context `{Host}.

(** *** Text cleaning *)

(** [/<!\[CDATA\[(.*?)\]\]>/gs], replaced by its group: from the opening
    marker to the first closing marker after it. *)
Definition m_cdata (s : jsstring) : option (nat * jsstring) :=
  if startsWith (lit "<![CDATA[") s then
    let rest := drop 9 s in
    k ← indexOf rest (lit "]]>");
    Some (9 + k + 3, take k rest)
  else None.

(** The block pattern of [stripHtml] for [script] and [style], flags
    [gi], replaced by the empty string: [<name] ending at a word boundary,
    then text in which no [<] starts the closing tag, then the closing tag
    [</name>]; that is, up to the first closing tag after the opening. *)
Definition m_block (name : string) (s : jsstring) : option (nat * jsstring) :=
  let opening := lit "<" ++ lit name in
  let closing := lit "</" ++ lit name ++ lit ">" in
  match Re.ci_match opening s None with
  | Some (lastc, rest) =>
      if Re.boundary lastc (head rest) then
        k ← Re.ci_indexOf rest closing;
        Some (length opening + k + length closing, [])
      else None
  | None => None
  end.

(** [/<[^>]*>/g], replaced by a space. *)
Definition m_tag (s : jsstring) : option (nat * jsstring) :=
  match s with
  | 60%Z :: s' => k ← indexOf s' (lit ">"); Some (k + 2, lit " ")
  | _ => None
  end.

Fixpoint ws_run (s : jsstring) : nat :=
  match s with
  | c :: s' => if is_ws c then S (ws_run s') else O
  | [] => O
  end.

(** [/\s+/g], replaced by a space. *)
Definition m_ws (s : jsstring) : option (nat * jsstring) :=
  match ws_run s with
  | O => None
  | n => Some (n, lit " ")
  end.

Definition stripHtml (input : option jsstring) : jsstring :=
  if negb (truthy input) then []
  else
    trim
      (Re.replaceAll m_ws
         (Re.replaceAll m_tag
            (Re.replaceAll (m_block "style")
               (Re.replaceAll (m_block "script")
                  (Re.replaceAll m_cdata (or_empty input)))))).

(** The marker appended by [truncate], as the source file spells it: the
    three code units U+00E2, U+20AC, U+00A6. *)
Definition ELLIPSIS : jsstring := [0xE2; 0x20AC; 0xA6]%Z.

Definition truncate (s : jsstring) (maxLen : Z) : jsstring :=
  let t := trim s in
  if (Z.of_nat (length t) <=? maxLen)%Z then t
  else trimEnd (slice t 0 (maxLen - 1)) ++ ELLIPSIS.

(** The bound [truncate] uses when the caller gives none. *)
Definition truncate_default_maxLen : Z := 260.

(** *** Stable identifier: FNV-1a, 32 bits *)

Definition fnv1a_step (h c : Z) : Z := imul (xor h c) 0x01000193.

Definition fnv1a (str : jsstring) : jsstring :=
  let h := foldl fnv1a_step 0x811c9dc5%Z str in
  padStart 8 48 (toStringRadix 16 (ushr0 h)).

(** *** Dates *)

Definition safeIsoDate (maybeDate : option jsstring) : option jsstring :=
  if negb (truthy maybeDate) then None
  else
    match Date_parse (or_empty maybeDate) with
    | None => None
    | Some t => Some (Date_toISOString t)
    end.

(** *** URL canonicalisation *)

Definition cleanUrl (rawUrl : option jsstring) (stripParams : list jsstring)
  : option jsstring :=
  if negb (truthy rawUrl) then None
  else
    let raw := or_empty rawUrl in
    match URL_parse raw with
    | Some u0 =>
        let u1 := foldl (λ u p, URL.searchParams_delete URL_encode p u)
                    u0 stripParams in
        let u2 := if bool_decide (length (URL.keys u1) = 0%nat)
                  then URL.clear_search u1 else u1 in
        let u3 := if bool_decide (URL.hash u2 = lit "#")
                  then URL.clear_hash u2 else u2 in
        Some (URL.toString u3)
    | None => Some raw
    end.

(** *** Keyword gating *)

Definition containsAny (haystack : jsstring) (needles : option (list jsstring))
  : bool :=
  match needles with
  | None | Some [] => true
  | Some ns =>
      let h := toLowerCase haystack in
      existsb (λ n, includes h (toLowerCase n)) ns
  end.

Definition excludedByAny (haystack : jsstring)
    (excludes : option (list jsstring)) : bool :=
  match excludes with
  | None | Some [] => false
  | Some ns =>
      let h := toLowerCase haystack in
      existsb (λ n, includes h (toLowerCase n)) ns
  end.

(** *** Tagging *)

Record rule := Rule { tag : jsstring; re : Re.pattern }.

Definition rules : list rule :=
  [ Rule (lit "Privacy")
      [Re.word "privacy"; Re.bare "gdpr"; Re.bare "consent";
       Re.bare "tracking"; Re.bare "cookie"; Re.bare "cookies";
       Re.bare "data broker"; Re.bare "eprivacy"; Re.bare "dsa";
       Re.bare "dma"];
    Rule (lit "Antitrust")
      [Re.word "antitrust"; Re.word "competition"; Re.bare "monopoly";
       Re.bare "dominant position"; Re.bare "merger"];
    Rule (lit "RTB")
      [Re.word "rtb"; Re.bare "real-time bidding"; Re.bare "openrtb";
       Re.bare "bid request"; Re.bare "bid response"; Re.bare "auction"];
    Rule (lit "Identity")
      [Re.word "identity"; Re.bare "id-less"; Re.bare "idfa";
       Re.bare "maid"; Re.bare "uid2"; Re.bare "ppid"];
    Rule (lit "Measurement")
      [Re.bare "measurement"; Re.bare "attribution";
       Re.bare "incrementality"; Re.bare "mmm"; Re.bare "mta";
       Re.bare "conversion"];
    Rule (lit "CTV")
      [Re.word "ctv"; Re.bare "connected tv"; Re.word "ott";
       Re.bare "streaming"];
    Rule (lit "Fraud")
      [Re.bare "fraud"; Re.bare "ivt"; Re.bare "spoofing";
       Re.bare "ads.txt"; Re.bare "app-ads.txt"; Re.bare "sellers.json"];
    Rule (lit "AI")
      [Re.word "ai"; Re.bare "llm"; Re.bare "machine learning";
       Re.bare "generative"];
    Rule (lit "Policy")
      [Re.bare "regulation"; Re.bare "law"; Re.bare "court";
       Re.bare "enforcement"; Re.bare "settlement"; Re.bare "complaint";
       Re.bare "filed"; Re.bare "trial"] ].

(** The loop of [computeTags] over a rule list: a matching rule pushes its
    tag. *)
Definition pushTags (rs : list rule) (t : jsstring) : list jsstring :=
  foldl (λ tags r, if Re.test (re r) t then tags ++ [tag r] else tags) [] rs.

Definition computeTags (text : jsstring) : list jsstring :=
  pushTags rules (toLowerCase text).

(** *** Fetching and parsing *)

(** [new Error(msg)] *)
Definition Error (msg : jsstring) : Thrown :=
  {| message := Some msg;
     rendering := match msg with
                  | [] => lit "Error"
                  | _ => lit "Error: " ++ msg
                  end |}.

Definition fetchText (url : jsstring) (timeout : Z) (agent : jsstring)
  : Thrown + jsstring :=
  let agent' := match agent with
                | [] => lit "AdAuctionNewsBot/1.0"
                | _ => agent
                end in
  match fetch url timeout agent' with
  | inl e => inl e
  | inr res =>
      if ok res then inr (body res)
      else inl (Error (lit "HTTP " ++ toStringRadix 10 (status res)
                         ++ lit " " ++ statusText res))
  end.

Definition parseFeedFromUrl (url : jsstring) (timeout : Z) (agent : jsstring)
  : Thrown + ParsedFeed :=
  match fetchText url timeout agent with
  | inl e => inl e
  | inr xml => Parser_parseString xml
  end.

(** *** Normalisation *)

(** The link candidate: [link], else [guid], else the [url] of the first
    element of [links]. *)
Definition rawLink (item : RawEntry) : option jsstring :=
  JS.or (raw_link item)
    (JS.or (raw_guid item)
       match raw_links item with
       | Some (first :: _) => first
       | _ => None
       end).

(** The date candidate, [None] when no field parses. *)
Definition parsedDate (item : RawEntry) : option jsstring :=
  JS.or (safeIsoDate (raw_isoDate item))
    (JS.or (safeIsoDate (raw_pubDate item))
       (JS.or (safeIsoDate (raw_published item))
          (JS.or (safeIsoDate (raw_date item))
             (JS.or (safeIsoDate (raw_updated item)) None)))).

Definition rawSummary (item : RawEntry) : jsstring :=
  or_empty
    (JS.or (raw_contentSnippet item)
       (JS.or (raw_summary item)
          (JS.or (raw_content item) (raw_content_encoded item)))).

(** The text that seeds the identifier. *)
Definition stableIdSeed (feedDef : FeedDef) (title : jsstring)
    (url published : option jsstring) : jsstring :=
  if truthy url then or_empty url
  else feed_id feedDef ++ lit "|" ++ title ++ lit "|" ++ or_empty published.

(** [now] is what [new Date().toISOString()] gives when the item is
    built. *)
Definition normalizeItem (feedDef : FeedDef) (item : RawEntry)
    (stripParams : list jsstring) (now : jsstring) : NormalizedItem :=
  let title :=
    match stripHtml (Some (or_empty (raw_title item))) with
    | [] => lit "(untitled)"
    | t => t
    end in
  let url := cleanUrl (rawLink item) stripParams in
  let published := parsedDate item in
  let summary := truncate (stripHtml (Some (rawSummary item))) 280 in
  let combinedText := title ++ lit " " ++ summary in
  let tags := computeTags combinedText in
  let id := fnv1a (stableIdSeed feedDef title url published) in
  {| id := id;
     title := title;
     url := url;
     source := feed_name feedDef;
     sourceId := feed_id feedDef;
     category := match feed_category feedDef with
                 | Some (c :: s) => c :: s
                 | _ => lit "Uncategorized"
                 end;
     tags := tags;
     published := if truthy published then or_empty published else now;
     summary := summary |}.
End script.

(** ** The run *)

(** A [Map]: keys in order of first insertion; setting a present key keeps
    its place. *)
Module JSMap.
Section map.
Context {K V : Type} `{EqDecision K}.

Definition t : Type := list (K * V).

Fixpoint get (k : K) (m : t) : option V :=
  match m with
  | [] => None
  | (k', v) :: m' => if decide (k' = k) then Some v else get k m'
  end.

Fixpoint set (k : K) (v : V) (m : t) : t :=
  match m with
  | [] => [(k, v)]
  | (k', v') :: m' =>
      if decide (k' = k) then (k', v) :: m' else (k', v') :: set k v m'
  end.

Definition values (m : t) : list V := snd <$> m.
End map.
End JSMap.

(** [Array.prototype.sort] with a comparator. The language makes the sort
    stable, so for a comparator that orders by a key the result is
    determined: elements in comparator order, equal ones in their original
    order. Insertion from the right computes it. *)
Section sort.
Context {A : Type} (cmp : A → A → Z).

Fixpoint sort_insert (x : A) (l : list A) : list A :=
  match l with
  | [] => [x]
  | y :: l' => if (cmp x y <=? 0)%Z then x :: l else y :: sort_insert x l'
  end.

Definition Array_sort (l : list A) : list A := foldr sort_insert [] l.
End sort.

(** The two output files; [None] is a file that was never written. *)
Record Disk := {
  news_json : option (list NormalizedItem);
  meta_json : option RunMetadata
}.

(** What the file system does to the three calls of a run: [None] lets the
    call succeed, [Some e] makes it throw [e]. A write that throws is taken
    to leave the file as it was. *)
Record Faults := {
  mkdir_fault : option Thrown;
  news_fault : option Thrown;
  meta_fault : option Thrown
}.

Record RunState := {
  st_errors : list FeedErrorRecord;
  st_all : list NormalizedItem
}.

Record Output := { out_news : list NormalizedItem; out_meta : RunMetadata }.

Section run.
Context `{Host}.

Definition includeOf (feedDef : FeedDef) : option (list jsstring) :=
  feed_keywords feedDef ≫= include.

Definition excludeOf (feedDef : FeedDef) : option (list jsstring) :=
  feed_keywords feedDef ≫= exclude.

Definition nonEmpty (l : option (list jsstring)) : bool :=
  match l with
  | Some (_ :: _) => true
  | _ => false
  end.

(** One round of the loop over a feed's entries: [continue] leaves the
    list as it is, otherwise the item is pushed. *)
Definition entryStep (defs : Defaults) (feedDef : FeedDef) (now : jsstring)
    (normalized : list NormalizedItem) (it : RawEntry)
  : list NormalizedItem :=
  let n := normalizeItem feedDef it (stripUrlParams defs) now in
  if negb (truthy (url n)) then normalized
  else
    let text := title n ++ lit " " ++ summary n in
    if nonEmpty (includeOf feedDef) && negb (containsAny text (includeOf feedDef))
    then normalized
    else if nonEmpty (excludeOf feedDef) && excludedByAny text (excludeOf feedDef)
    then normalized
    else normalized ++ [n].

Definition maxItemsOf (defs : Defaults) (feedDef : FeedDef) : Z :=
  default (maxItemsPerFeed defs) (feed_maxItemsPerFeed feedDef).

Definition feedItems (defs : Defaults) (feedDef : FeedDef) (now : jsstring)
    (parsed : ParsedFeed) : list NormalizedItem :=
  let its := default [] (items parsed) in
  foldl (entryStep defs feedDef now) []
    (slice its 0 (maxItemsOf defs feedDef)).

Definition errorRecord (feedDef : FeedDef) (e : Thrown) : FeedErrorRecord :=
  {| err_id := feed_id feedDef;
     err_name := feed_name feedDef;
     err_url := feed_url feedDef;
     err_error := if truthy (message e) then or_empty (message e)
                  else rendering e |}.

(** The body of the loop over feeds: the [try] block and its [catch]. *)
Definition feedStep (defs : Defaults) (now : jsstring) (st : RunState)
    (feedDef : FeedDef) : RunState :=
  match parseFeedFromUrl (feed_url feedDef) (timeoutMs defs) (userAgent defs) with
  | inr parsed =>
      {| st_errors := st_errors st;
         st_all := st_all st ++ feedItems defs feedDef now parsed |}
  | inl e =>
      {| st_errors := st_errors st ++ [errorRecord feedDef e];
         st_all := st_all st |}
  end.

Definition collect (cfg : Config) (now : jsstring) : RunState :=
  foldl (feedStep (defaults cfg) now)
    {| st_errors := []; st_all := [] |} (feeds cfg).

(** [Date.parse(s) || 0] *)
Definition timeOf (s : jsstring) : Z := default 0%Z (Date_parse s).

Definition dedupeStep (byUrl : JSMap.t (K:=option jsstring) (V:=NormalizedItem))
    (it : NormalizedItem) : JSMap.t :=
  match JSMap.get (url it) byUrl with
  | None => JSMap.set (url it) it byUrl
  | Some existing =>
      let tNew := timeOf (published it) in
      let tOld := timeOf (published existing) in
      if (tOld <=? tNew)%Z then JSMap.set (url it) it byUrl else byUrl
  end.

Definition dedupe (all : list NormalizedItem) : list NormalizedItem :=
  JSMap.values (foldl dedupeStep [] all).

Definition newestFirst (a b : NormalizedItem) : Z :=
  (timeOf (published b) - timeOf (published a))%Z.

Definition rank (defs : Defaults) (deduped : list NormalizedItem)
  : list NormalizedItem :=
  slice (Array_sort newestFirst deduped) 0 (maxTotalItems defs).

(** Everything [main] computes before it writes. [now] stands for the
    clock readings during normalisation (the run time), [stamp] for the
    one taken for the metadata. *)
Definition build (cfg : Config) (now stamp : jsstring) : Output :=
  let st := collect cfg now in
  let limited := rank (defaults cfg) (dedupe (st_all st)) in
  {| out_news := limited;
     out_meta := {| generatedAt := stamp;
                    feedCount := length (feeds cfg);
                    itemCount := length limited;
                    errors := st_errors st |} |}.

(** The two writes, one after the other; the first that throws ends the
    run. *)
Definition persist (f : Faults) (out : Output) (disk : Disk)
  : Disk * option Thrown :=
  match news_fault f with
  | Some e => (disk, Some e)
  | None =>
      let disk1 := {| news_json := Some (out_news out);
                      meta_json := meta_json disk |} in
      match meta_fault f with
      | Some e => (disk1, Some e)
      | None =>
          ({| news_json := Some (out_news out);
              meta_json := Some (out_meta out) |}, None)
      end
  end.

(** [main] on a loaded configuration: the files afterwards, and the value
    the run rejects with, if any. *)
Definition main (cfg : Config) (now stamp : jsstring) (f : Faults)
    (disk : Disk) : Disk * option Thrown :=
  match mkdir_fault f with
  | Some e => (disk, Some e)
  | None => persist f (build cfg now stamp) disk
  end.
End run.

(** ** A small concrete platform for examples

    Lower-casing of Basic Latin letters; dates in the one format that
    [toISOString] prints; absolute [http] and [https] URLs that are already
    in serialised form and whose query needs no percent-encoding; a network
    and a feed parser given as tables. *)
Module Demo.

Definition lower (s : jsstring) : jsstring :=
  (λ c, if (65 <=? c) && (c <=? 90) then c + 32 else c)%Z <$> s.

Definition digitVal (c : Z) : option Z :=
  if ((48 <=? c) && (c <=? 57))%Z then Some (c - 48)%Z else None.

Fixpoint number (s : jsstring) (acc : Z) : option Z :=
  match s with
  | [] => Some acc
  | c :: s' => d ← digitVal c; number s' (10 * acc + d)%Z
  end.

Definition field (s : jsstring) (from len : nat) : option Z :=
  let f := take len (drop from s) in
  if bool_decide (length f = len) then number f 0 else None.

Definition is_leap (y : Z) : bool :=
  ((y mod 4 =? 0) && negb (y mod 100 =? 0) || (y mod 400 =? 0))%Z.

Definition days_in_month (y m : Z) : Z :=
  (if m =? 2 then (if is_leap y then 29 else 28)
   else if (m =? 4) || (m =? 6) || (m =? 9) || (m =? 11) then 30 else 31)%Z.

(** Days from 1970-01-01 to the given civil date. *)
Definition days_from_civil (y m d : Z) : Z :=
  (let y' := if m <=? 2 then y - 1 else y in
   let era := y' / 400 in
   let yoe := y' - era * 400 in
   let mp := if 2 <? m then m - 3 else m + 9 in
   let doy := (153 * mp + 2) / 5 + d - 1 in
   let doe := yoe * 365 + yoe / 4 - yoe / 100 + doy in
   era * 146097 + doe - 719468)%Z.

Definition civil_from_days (z0 : Z) : Z * Z * Z :=
  (let z := z0 + 719468 in
   let era := z / 146097 in
   let doe := z - era * 146097 in
   let yoe := (doe - doe / 1460 + doe / 36524 - doe / 146096) / 365 in
   let doy := doe - (365 * yoe + yoe / 4 - yoe / 100) in
   let mp := (5 * doy + 2) / 153 in
   let d := doy - (153 * mp + 2) / 5 + 1 in
   let m := if mp <? 10 then mp + 3 else mp - 9 in
   let y := yoe + era * 400 in
   (if m <=? 2 then y + 1 else y, m, d))%Z.

Definition punct (s : jsstring) (i : nat) (c : Z) : bool :=
  bool_decide (s !! i = Some c).

(** [YYYY-MM-DDTHH:MM:SS.mmmZ] to milliseconds since the epoch. *)
Definition parse_iso (s : jsstring) : option Z :=
  if bool_decide (length s = 24%nat)
     && punct s 4 45 && punct s 7 45 && punct s 10 84 && punct s 13 58
     && punct s 16 58 && punct s 19 46 && punct s 23 90
  then
    y ← field s 0 4; m ← field s 5 2; d ← field s 8 2;
    h ← field s 11 2; mi ← field s 14 2; sec ← field s 17 2;
    ms ← field s 20 3;
    if ((1 <=? m) && (m <=? 12) && (1 <=? d) && (d <=? days_in_month y m)
        && (h <=? 23) && (mi <=? 59) && (sec <=? 59))%Z
    then Some ((((days_from_civil y m d * 24 + h) * 60 + mi) * 60 + sec)
               * 1000 + ms)%Z
    else None
  else None.

Definition pad (n : nat) (z : Z) : jsstring :=
  padStart n 48 (toStringRadix 10 z).

(** The inverse print, for instants in the years 0000 to 9999. *)
Definition print_iso (t : Z) : jsstring :=
  (let ms := t mod 1000 in
   let secs := t / 1000 in
   let sec := secs mod 60 in
   let mins := secs / 60 in
   let mi := mins mod 60 in
   let hours := mins / 60 in
   let h := hours mod 24 in
   let '(y, m, d) := civil_from_days (hours / 24) in
   pad 4 y ++ lit "-" ++ pad 2 m ++ lit "-" ++ pad 2 d ++ lit "T"
   ++ pad 2 h ++ lit ":" ++ pad 2 mi ++ lit ":" ++ pad 2 sec ++ lit "."
   ++ pad 3 ms ++ lit "Z")%Z.

(** The part before the first [c], and the part after it if [c] occurs. *)
Fixpoint split_at (c : Z) (s : jsstring) : jsstring * option jsstring :=
  match s with
  | [] => ([], None)
  | x :: s' =>
      if (x =? c)%Z then ([], Some s')
      else let '(a, b) := split_at c s' in (x :: a, b)
  end.

Fixpoint split (c : Z) (s : jsstring) : list jsstring :=
  match s with
  | [] => [[]]
  | x :: s' =>
      if (x =? c)%Z then [] :: split c s'
      else match split c s' with
           | h :: t => (x :: h) :: t
           | [] => [[x]]
           end
  end.

Definition pairs (q : option jsstring) : list (jsstring * jsstring) :=
  (λ f, let '(k, v) := split_at 61 f in (k, default [] v))
    <$> filter (λ f, f ≠ []) (split 38 (default [] q)).

Definition plain (c : Z) : bool := ((33 <=? c) && (c <=? 126))%Z.

Definition parse_url (raw : jsstring) : option URL.t :=
  let '(front, frag) := split_at 35 raw in
  let '(base, q) := split_at 63 front in
  let after :=
    if startsWith (lit "https://") base then Some (drop 8 base)
    else if startsWith (lit "http://") base then Some (drop 7 base)
    else None in
  match after with
  | Some (c :: rest) =>
      if negb (c =? 47)%Z && includes rest (lit "/") && forallb plain raw
      then Some (URL.Make base q (pairs q) frag)
      else None
  | _ => None
  end.

Fixpoint lookup {V} (k : jsstring) (table : list (jsstring * V)) : option V :=
  match table with
  | [] => None
  | (k', v) :: table' => if eqb k' k then Some v else lookup k table'
  end.

Definition unreachable : Thrown :=
  {| message := Some (lit "fetch failed");
     rendering := lit "TypeError: fetch failed" |}.

Definition not_a_feed : Thrown :=
  {| message := Some (lit "Feed not recognized as RSS 1 or 2.");
     rendering := lit "Error: Feed not recognized as RSS 1 or 2." |}.

(** A platform over a network table (URL to outcome) and a parser table
    (body to parsed feed). *)
Definition host (net : list (jsstring * (Thrown + Response)))
    (docs : list (jsstring * ParsedFeed)) : Host :=
  {| toLowerCase := lower;
     Date_parse := parse_iso;
     Date_toISOString := print_iso;
     URL_parse := parse_url;
     URL_encode := λ s, s;
     fetch := λ u _ _, default (inl unreachable) (lookup u net);
     Parser_parseString := λ b,
       match lookup b docs with
       | Some p => inr p
       | None => inl not_a_feed
       end |}.

(** A platform without a network. *)
Definition offline : Host := host [] [].

Definition entry (title link date text : string) : RawEntry :=
  {| raw_title := Some (lit title);
     raw_link := Some (lit link);
     raw_guid := None;
     raw_links := None;
     raw_isoDate := Some (lit date);
     raw_pubDate := None;
     raw_published := None;
     raw_date := None;
     raw_updated := None;
     raw_contentSnippet := Some (lit text);
     raw_summary := None;
     raw_content := None;
     raw_content_encoded := None |}.

Definition feed (name url : string) (cap : option Z) (kw : option Keywords)
  : FeedDef :=
  {| feed_id := lit name;
     feed_name := lit name;
     feed_url := lit url;
     feed_category := None;
     feed_maxItemsPerFeed := cap;
     feed_keywords := kw |}.

Definition defs (perFeed total : Z) (strip : list jsstring) : Defaults :=
  {| maxItemsPerFeed := perFeed;
     maxTotalItems := total;
     timeoutMs := 25000;
     userAgent := lit "AdAuctionNewsBot/1.0 (+https://github.com/)";
     stripUrlParams := strip |}.

Definition served (b : string) : Thrown + Response :=
  inr {| ok := true; status := 200; statusText := lit "OK"; body := lit b |}.

End Demo.

(** ** Vocabulary of the statements *)

(** [x] may stand before [y] under the comparator [cmp]. *)
Definition precedes {A : Type} (cmp : A → A → Z) (x y : A) : Prop :=
  (cmp x y ≤ 0)%Z.

Section vocabulary.
Context `{Host}.

(** The instant by which the run orders an item. *)
Definition stamp (it : NormalizedItem) : Z := timeOf (published it).

(** [v], found at index [i] of [all], wins its URL: no item of the same
    URL is newer, and none of the same age comes later. *)
Definition wins (all : list NormalizedItem) (i : nat) (v : NormalizedItem)
  : Prop :=
  all !! i = Some v
  ∧ ∀ j o, all !! j = Some o → url o = url v →
      (stamp o ≤ stamp v)%Z ∧ (stamp o = stamp v → j ≤ i).

(** [kw] occurs in [text] as a substring, case ignored the way the script
    does it: both sides lower-cased. *)
Definition mentions (text kw : jsstring) : Prop :=
  ∃ pre post, toLowerCase text = pre ++ toLowerCase kw ++ post.
End vocabulary.

Section invariants.
Context `{Host}.

(** What the deduplication loop maintains: after the items [seen], the
    map has one entry per URL seen, keyed by it, holding the winner. *)
Definition dedupe_inv (seen : list NormalizedItem)
    (m : JSMap.t (K:=option jsstring) (V:=NormalizedItem)) : Prop :=
  NoDup m.*1
  ∧ (∀ k v, (k, v) ∈ m → url v = k ∧ ∃ i, wins seen i v)
  ∧ (∀ o, o ∈ seen → url o ∈ m.*1).

(** The loop of [cleanUrl] over the configured parameter names. *)
Definition strip_all (strip : list jsstring) (u : URL.t) : URL.t :=
  foldl (λ u p, URL.searchParams_delete URL_encode p u) u strip.
End invariants.

(** ** Fixtures for the examples *)

Module Fixtures.

Definition item (name link date : string) : NormalizedItem :=
  {| id := fnv1a (lit link);
     title := lit name;
     url := Some (lit link);
     source := lit "Feed";
     sourceId := lit "feed";
     category := lit "Uncategorized";
     tags := [];
     published := lit date;
     summary := [] |}.

(** Five items, five instants, out of order. *)
Definition five : list NormalizedItem :=
  [ item "wed" "https://example.com/3" "2024-01-03T08:00:00.000Z";
    item "mon" "https://example.com/1" "2024-01-01T08:00:00.000Z";
    item "fri" "https://example.com/5" "2024-01-05T08:00:00.000Z";
    item "tue" "https://example.com/2" "2024-01-02T08:00:00.000Z";
    item "thu" "https://example.com/4" "2024-01-04T08:00:00.000Z" ].


Definition now : jsstring := lit "2024-02-01T00:00:00.000Z".

(** A feed gated by include [privacy] and exclude [gdpr], and what it
    keeps of a single entry with the given body text. *)
Definition gated : FeedDef :=
  Demo.feed "ads" "https://feeds.example.com/ads.xml" None
    (Some {| include := Some [lit "privacy"]; exclude := Some [lit "gdpr"] |}).

Definition kept (text : string) : list jsstring :=
  summary <$>
    entryStep (H:=Demo.offline) (Demo.defs 40 700 []) gated now []
      (Demo.entry "Weekly note" "https://example.com/post"
         "2024-01-01T08:00:00.000Z" text).

(** A feed capped at two entries whose first entry has no link, and a
    third entry that would pass on its own. *)
Definition capped : FeedDef :=
  Demo.feed "ads" "https://feeds.example.com/ads.xml" (Some 2%Z) None.

Definition three : list RawEntry :=
  [ Demo.entry "no link" "" "2024-01-01T08:00:00.000Z" "first";
    Demo.entry "second" "https://example.com/2" "2024-01-02T08:00:00.000Z" "second";
    Demo.entry "third" "https://example.com/3" "2024-01-03T08:00:00.000Z" "third" ].

Definition contribution (entries : list RawEntry) : list jsstring :=
  title <$>
    feedItems (H:=Demo.offline) (Demo.defs 40 700 []) capped now
      {| items := Some entries |}.


(** Two feeds: the first cannot be reached, the second serves one entry. *)
Definition down : FeedDef :=
  Demo.feed "down" "https://down.example.com/rss" None None.

Definition up : FeedDef :=
  Demo.feed "up" "https://up.example.com/rss" None None.

Definition world : Host :=
  Demo.host
    [ (lit "https://up.example.com/rss", Demo.served "<rss>one entry</rss>") ]
    [ (lit "<rss>one entry</rss>",
       {| items := Some [ Demo.entry "Auction news" "https://example.com/a?utm_source=rss"
                            "2024-01-05T08:00:00.000Z" "Bid request volumes" ] |}) ].

Definition no_faults : Faults :=
  {| mkdir_fault := None; news_fault := None; meta_fault := None |}.


(** The files left by an earlier run that kept the five items. *)
Definition old_disk : Disk :=
  {| news_json := Some five;
     meta_json := Some {| generatedAt := lit "2024-01-06T00:00:00.000Z";
                          feedCount := 2; itemCount := 5; errors := [] |} |}.

Definition cfg : Config :=
  {| defaults := Demo.defs 40 700 [lit "utm_source"]; feeds := [down; up] |}.

Definition later : jsstring := lit "2024-02-01T00:00:05.000Z".



End Fixtures.

(** ** Loading the configuration *)

(** The [defaults] block of [feeds.yml] as parsed: a field is [None] when
    it is missing or null. *)
Record RawDefaults := {
  rd_maxItemsPerFeed : option Z;
  rd_maxTotalItems : option Z;
  rd_timeoutMs : option Z;
  rd_userAgent : option jsstring;
  rd_stripUrlParams : option (list jsstring)
}.

(** The parsed document: [cfg_feeds] is [None] when [feeds] is missing or
    not an array, [cfg_defaults] when [defaults] is missing or falsy. *)
Record RawConfig := {
  cfg_feeds : option (list FeedDef);
  cfg_defaults : option RawDefaults
}.

Definition no_defaults : RawDefaults :=
  {| rd_maxItemsPerFeed := None; rd_maxTotalItems := None;
     rd_timeoutMs := None; rd_userAgent := None; rd_stripUrlParams := None |}.

Definition config_error : Thrown :=
  Error (lit "feeds.yml is missing or invalid (expected top-level "
         ++ [34%Z] ++ lit "feeds" ++ [34%Z] ++ lit " array).").

(** [loadConfig]: [file] is what reading [feeds.yml] gives, [parse] is
    [YAML.parse], whose result is [None] for a falsy document. *)
Definition loadConfig (file : Thrown + jsstring)
    (parse : jsstring → Thrown + option RawConfig) : Thrown + Config :=
  match file with
  | inl e => inl e
  | inr raw =>
      match parse raw with
      | inl e => inl e
      | inr None => inl config_error
      | inr (Some cfg) =>
          match cfg_feeds cfg with
          | None => inl config_error
          | Some fs =>
              let d := default no_defaults (cfg_defaults cfg) in
              inr {| defaults :=
                       {| maxItemsPerFeed := default 40%Z (rd_maxItemsPerFeed d);
                          maxTotalItems := default 700%Z (rd_maxTotalItems d);
                          timeoutMs := default 25000%Z (rd_timeoutMs d);
                          userAgent :=
                            default (lit "AdAuctionNewsBot/1.0 (+https://github.com/)")
                              (rd_userAgent d);
                          stripUrlParams := default [] (rd_stripUrlParams d) |};
                     feeds := fs |}
          end
      end
  end.

Section whole_run.
Context `{Host}.

(** [main] from its first line: the configuration is loaded, then the run
    proceeds; a configuration that does not load ends it at once. *)
Definition run (file : Thrown + jsstring)
    (parse : jsstring → Thrown + option RawConfig) (now stamp : jsstring)
    (f : Faults) (disk : Disk) : Disk * option Thrown :=
  match loadConfig file parse with
  | inl e => (disk, Some e)
  | inr cfg => main cfg now stamp f disk
  end.

(** Whether a feed ends in the [catch] branch, and what it adds to the
    collected items otherwise. *)
Definition feedFails (defs : Defaults) (f : FeedDef) : bool :=
  match parseFeedFromUrl (feed_url f) (timeoutMs defs) (userAgent defs) with
  | inl _ => true
  | inr _ => false
  end.

Definition feedContribution (defs : Defaults) (now : jsstring) (f : FeedDef)
  : list NormalizedItem :=
  match parseFeedFromUrl (feed_url f) (timeoutMs defs) (userAgent defs) with
  | inl _ => []
  | inr parsed => feedItems defs f now parsed
  end.

Definition feedErrors (defs : Defaults) (f : FeedDef) : list FeedErrorRecord :=
  match parseFeedFromUrl (feed_url f) (timeoutMs defs) (userAgent defs) with
  | inl e => [errorRecord f e]
  | inr _ => []
  end.
End whole_run.

(** ** More vocabulary *)

(** Reading a numeral back: the value of a digit character and of a digit
    string in a radix. *)
Definition digit_value (c : Z) : Z := (if c <=? 57 then c - 48 else c - 87)%Z.

Definition number_of (radix : Z) (s : jsstring) : Z :=
  foldl (λ a c, a * radix + digit_value c)%Z 0%Z s.

Definition is_hex (c : Z) : bool :=
  ((48 <=? c) && (c <=? 57) || (97 <=? c) && (c <=? 102))%Z.

(** The distinct elements of [l] in order of first appearance, leaving out
    those of [seen]. *)
Fixpoint first_seen {K} `{EqDecision K} (seen l : list K) : list K :=
  match l with
  | [] => []
  | x :: l' =>
      if decide (x ∈ seen) then first_seen seen l'
      else x :: first_seen (seen ++ [x]) l'
  end.

(** No [<] of the text has a [>] anywhere after it. *)
Definition tagfree (s : jsstring) : Prop := ¬ [60; 62]%Z `sublist_of` s.

(** Every white-space unit of the text is a space, and the unit after it,
    if any, is not white space. *)
Definition collapsed (s : jsstring) : Prop :=
  ∀ pre c post, s = pre ++ c :: post → is_ws c = true →
    c = 32%Z ∧ ∀ d, head post = Some d → is_ws d = false.

(** The date fields of an entry, in the order [normalizeItem] tries
    them. *)
Definition dateCandidates (item : RawEntry) : list (option jsstring) :=
  [raw_isoDate item; raw_pubDate item; raw_published item; raw_date item;
   raw_updated item].

(** ** More fixtures *)

Module Cases.



Definition start : RunState := {| st_errors := []; st_all := [] |}.

(** A configuration file with an empty feed list and no defaults block. *)
Definition empty_yaml : jsstring := lit "feeds: []".

Definition yaml (raw : jsstring) : Thrown + option RawConfig :=
  if eqb raw empty_yaml
  then inr (Some {| cfg_feeds := Some []; cfg_defaults := None |})
  else inr None.

End Cases.

(** ** The browsing front end

    The page script that reads the two files: its saved state, the set of
    read items, and the filters. The state is passed explicitly; saving it
    to local storage, whose failures the script ignores, is left out. Item
    ids and filter values are strings. *)
Module Front.

Record State := {
  schemaVersion : Z;
  query : jsstring;
  timeRange : jsstring;
  hideRead : bool;
  (** [None] is [null]: everything selected *)
  categories : option (list jsstring);
  sources : option (list jsstring);
  readIds : list jsstring
}.

(** The state of a first visit: the [base] of [migrateOrDefault]. *)
Definition base : State :=
  {| schemaVersion := 2; query := []; timeRange := lit "all";
     hideRead := false; categories := None; sources := None; readIds := [] |}.

(** A [Set] of strings: its elements in insertion order. *)
Definition Set_of (l : list jsstring) : list jsstring := first_seen [] l.

Definition Set_add (x : jsstring) (s : list jsstring) : list jsstring :=
  if decide (x ∈ s) then s else s ++ [x].

Definition Set_has (x : jsstring) (s : list jsstring) : bool :=
  bool_decide (x ∈ s).

(** [uniq] *)
Definition uniq (arr : list jsstring) : list jsstring := Set_of arr.

(** [arr.filter(Boolean)] on strings: the empty string goes. *)
Definition truthy_only (arr : list jsstring) : list jsstring :=
  filter (λ s, s ≠ []) arr.

Definition readSetFromState (state : State) : list jsstring :=
  Set_of (truthy_only (readIds state)).

Definition MAX_READ : nat := 2000.

Definition set_readIds (state : State) (ids : list jsstring) : State :=
  {| schemaVersion := schemaVersion state; query := query state;
     timeRange := timeRange state; hideRead := hideRead state;
     categories := categories state; sources := sources state;
     readIds := ids |}.

Definition writeReadSetToState (state : State) (readSet : list jsstring)
  : State :=
  let arr := readSet in
  let len := Z.of_nat (length arr) in
  let sliced :=
    if decide (MAX_READ < length arr)
    then slice arr (len - Z.of_nat MAX_READ) len
    else arr in
  set_readIds state sliced.

Definition isRead (state : State) (itemId : jsstring) : bool :=
  Set_has itemId (readSetFromState state).

Definition markRead (state : State) (itemId : jsstring) : State :=
  writeReadSetToState state (Set_add itemId (readSetFromState state)).

Definition clearRead (state : State) : State := set_readIds state [].

Definition Set_delete (x : jsstring) (s : list jsstring) : list jsstring :=
  filter (λ y, y ≠ x) s.

(** [setSelection]: the value it stores under the key. *)
Definition setSelection (set allValues : list jsstring)
  : option (list jsstring) :=
  let arr := set in
  if decide (length arr = length allValues) then None else Some arr.

(** The handler of a filter checkbox: the value stored after the box of [v]
    changes to [checked], from the selection of the last rendering. *)
Definition onToggle (selected values : list jsstring) (v : jsstring)
    (checked : bool) : option (list jsstring) :=
  let next := Set_of selected in
  let next := if checked then Set_add v next else Set_delete v next in
  setSelection next values.

Definition set_categories (state : State) (saved : option (list jsstring))
  : State :=
  {| schemaVersion := schemaVersion state; query := query state;
     timeRange := timeRange state; hideRead := hideRead state;
     categories := saved; sources := sources state;
     readIds := readIds state |}.

(** The handler of the time range menu stores its value. *)
Definition set_timeRange (state : State) (range : jsstring) : State :=
  {| schemaVersion := schemaVersion state; query := query state;
     timeRange := range; hideRead := hideRead state;
     categories := categories state; sources := sources state;
     readIds := readIds state |}.

(** The handler of the hide-read box stores its state. *)
Definition set_hideRead (state : State) (checked : bool) : State :=
  {| schemaVersion := schemaVersion state; query := query state;
     timeRange := timeRange state; hideRead := checked;
     categories := categories state; sources := sources state;
     readIds := readIds state |}.

Definition set_sources (state : State) (saved : option (list jsstring))
  : State :=
  {| schemaVersion := schemaVersion state; query := query state;
     timeRange := timeRange state; hideRead := hideRead state;
     categories := categories state; sources := saved;
     readIds := readIds state |}.

(** [arr.join(sep)] *)
Fixpoint join (sep : jsstring) (arr : list jsstring) : jsstring :=
  match arr with
  | [] => []
  | [x] => x
  | x :: rest => x ++ sep ++ join sep rest
  end.

(** The default order of [sort()] on strings: by code units. *)
Fixpoint compare_units (a b : jsstring) : Z :=
  match a, b with
  | [], [] => 0%Z
  | [], _ :: _ => (-1)%Z
  | _ :: _, [] => 1%Z
  | x :: a', y :: b' =>
      if (x <? y)%Z then (-1)%Z
      else if (y <? x)%Z then 1%Z
      else compare_units a' b'
  end.

Record Filtered := {
  filtered : list NormalizedItem;
  shown_categories : list jsstring;
  shown_sources : list jsstring;
  selectedCats : list jsstring;
  selectedSources : list jsstring
}.

Section filters.
Context `{Host}.

(** [parseISO]: [None] is [null]. *)
Definition parseISO (d : jsstring) : option Z := Date_parse d.

Definition oneDay : Z := 24 * (60 * 60 * 1000).

(** [nowTs] is the clock reading of [Date.now()]. *)
Definition getCutoffMs (nowTs : Z) (range : jsstring) : option Z :=
  if eqb range (lit "24h") then Some (nowTs - 1 * oneDay)%Z
  else if eqb range (lit "7d") then Some (nowTs - 7 * oneDay)%Z
  else if eqb range (lit "30d") then Some (nowTs - 30 * oneDay)%Z
  else if eqb range (lit "90d") then Some (nowTs - 90 * oneDay)%Z
  else if eqb range (lit "all") then None
  else None.

Definition normalizeQuery (s : jsstring) : jsstring := toLowerCase (trim s).

Definition matchesQuery (item : NormalizedItem) (q : jsstring) : bool :=
  match q with
  | [] => true
  | _ =>
      let hay :=
        toLowerCase
          (join (lit " ")
             ([title item; summary item; source item; category item]
              ++ tags item)) in
      includes hay q
  end.

Definition selectedSetOrAll (saved : option (list jsstring))
    (values : list jsstring) : list jsstring :=
  match saved with
  | None => Set_of values
  | Some l => Set_of (filter (λ v, v ∈ values) l)
  end.

(** The test of [applyFilters] on one item. *)
Definition passes (state : State) (cutoff : option Z)
    (cats srcs : list jsstring) (q : jsstring) (it : NormalizedItem) : bool :=
  if match cutoff with
     | Some c =>
         match parseISO (published it) with
         | Some t => (t =? 0)%Z || (t <? c)%Z
         | None => true
         end
     | None => false
     end
  then false
  else if negb (Set_has (category it) cats) then false
  else if negb (Set_has (source it) srcs) then false
  else if negb (matchesQuery it q) then false
  else if hideRead state && isRead state (id it) then false
  else true.

Definition applyFilters (state : State) (nowTs : Z)
    (items : list NormalizedItem) : Filtered :=
  let q := normalizeQuery (query state) in
  let cutoff := getCutoffMs nowTs (timeRange state) in
  let cats :=
    Array_sort compare_units (uniq (truthy_only (category <$> items))) in
  let srcs :=
    Array_sort compare_units (uniq (truthy_only (source <$> items))) in
  let selected_cats := selectedSetOrAll (categories state) cats in
  let selected_srcs := selectedSetOrAll (sources state) srcs in
  {| filtered :=
       List.filter (passes state cutoff selected_cats selected_srcs q) items;
     shown_categories := cats;
     shown_sources := srcs;
     selectedCats := selected_cats;
     selectedSources := selected_srcs |}.
(** The handlers of the category and source checkboxes. *)
Definition toggleCategory (state : State) (nowTs : Z)
    (items : list NormalizedItem) (v : jsstring) (checked : bool) : State :=
  let r := applyFilters state nowTs items in
  set_categories state (onToggle (selectedCats r) (shown_categories r) v checked).

Definition toggleSource (state : State) (nowTs : Z)
    (items : list NormalizedItem) (v : jsstring) (checked : bool) : State :=
  let r := applyFilters state nowTs items in
  set_sources state (onToggle (selectedSources r) (shown_sources r) v checked).
End filters.

(** The handler of the reset button. *)
Definition resetFilters (state : State) : State :=
  {| schemaVersion := schemaVersion state; query := [];
     timeRange := lit "all"; hideRead := false;
     categories := None; sources := None; readIds := readIds state |}.

End Front.

(** A small list of items for the front end: two categories, two sources. *)
Module Shelf.

Definition entry (name cat src date : string) : NormalizedItem :=
  {| id := fnv1a (lit name);
     title := lit name;
     url := Some (lit name);
     source := lit src;
     sourceId := lit src;
     category := lit cat;
     tags := [];
     published := lit date;
     summary := [] |}.

Definition items : list NormalizedItem :=
  [ entry "first" "Ads" "One" "2024-01-03T08:00:00.000Z";
    entry "second" "Privacy" "Two" "2024-01-02T08:00:00.000Z";
    entry "third" "Ads" "Two" "2024-01-01T08:00:00.000Z" ].

End Shelf.

(** * Properties *)

(** ** Strings *)

Section string_facts.
Implicit Types s t p : jsstring.

Lemma trimStart_split s :
  ∃ ws, s = ws ++ trimStart s ∧ Forall (λ c, is_ws c = true) ws.
Proof.
  induction s as [|c s [ws [Hs Hws]]]; simpl.
  - by exists [].
  - destruct (is_ws c) eqn:Hc.
    + exists (c :: ws). split; [by rw /= -Hs | by constructor].
    + by exists [].
Qed.

Lemma trimStart_suffix s : trimStart s `suffix_of` s.
Proof. destruct (trimStart_split s) as [ws [Hs _]]. by exists ws. Qed.

Lemma trimStart_head s c : head (trimStart s) = Some c → is_ws c = false.
Proof.
  induction s as [|d s IH]; simpl; [done|].
  destruct (is_ws d) eqn:Hd; [done|]. simpl. congruence.
Qed.

Lemma trimEnd_prefix s : trimEnd s `prefix_of` s.
Proof.
  rw /trimEnd -{2}(reverse_involutive s).
  apply suffix_prefix_reverse, trimStart_suffix.
Qed.

Lemma trimEnd_last s c : last (trimEnd s) = Some c → is_ws c = false.
Proof. rw /trimEnd last_reverse. apply trimStart_head. Qed.

Lemma trimEnd_length s : length (trimEnd s) ≤ length s.
Proof. apply prefix_length, trimEnd_prefix. Qed.

Lemma prefix_head s t c : s `prefix_of` t → head s = Some c → head t = Some c.
Proof. intros [k ->]. by destruct s. Qed.

Lemma trim_head s c : head (trim s) = Some c → is_ws c = false.
Proof.
  intros Hc. apply (trimStart_head s).
  eapply prefix_head; [apply trimEnd_prefix | exact Hc].
Qed.

Lemma trim_last s c : last (trim s) = Some c → is_ws c = false.
Proof. apply trimEnd_last. Qed.

(** [slice(0, e)] with a non-negative end is the first [e] elements. *)
Lemma slice_0_take {A} (l : list A) (e : Z) :
  (0 ≤ e)%Z → slice l 0 e = take (Z.to_nat e) l.
Proof.
  intros He. rw /slice /rel_index.
  assert ((0 <? 0)%Z = false) as -> by done.
  assert ((e <? 0)%Z = false) as -> by lia.
  rw (Z.min_l 0); [|lia]. rw drop_0 Z.sub_0_r.
  destruct (decide (e ≤ Z.of_nat (length l))%Z).
  - rw Z.min_l; [done|lia].
  - rw Z.min_r; [|lia]. rw Nat2Z.id !take_ge; [done|lia..].
Qed.

Lemma startsWith_spec p s : startsWith p s = true ↔ p `prefix_of` s.
Proof.
  revert s. induction p as [|a p IH]; intros s; simpl.
  - split; [intros _; apply prefix_nil | done].
  - destruct s as [|b s].
    + split; [done | intros [k Hk]; discriminate].
    + rw andb_true_iff IH Z.eqb_eq. split.
      * intros [-> Hp]. by apply prefix_cons.
      * intros [k Hk]. injection Hk as -> ->. split; [done | by exists k].
Qed.

(** [includes] decides occurrence as a contiguous substring. *)
Lemma includes_spec h n :
  includes h n = true ↔ ∃ pre post, h = pre ++ n ++ post.
Proof.
  induction h as [|c h IH]; simpl.
  - rw orb_false_r startsWith_spec. split.
    + intros [k Hk]. by exists [], k.
    + intros (pre & post & Hh).
      destruct pre; [by exists post | discriminate].
  - rw orb_true_iff startsWith_spec IH. split.
    + intros [[k Hk] | (pre & post & ->)].
      * by exists [], k.
      * by exists (c :: pre), post.
    + intros (pre & post & Hh). destruct pre as [|c' pre].
      * left. by exists post.
      * right. injection Hh as -> ->. by exists pre, post.
Qed.
End string_facts.

(** ** Truncation *)

Lemma truncate_short (s : jsstring) (maxLen : Z) :
  (Z.of_nat (length (trim s)) ≤ maxLen)%Z → truncate s maxLen = trim s.
Proof.
  intros Hle. rw /truncate.
  by destruct (Z.leb_spec (Z.of_nat (length (trim s))) maxLen); [|lia].
Qed.

Lemma truncate_long (s : jsstring) (maxLen : Z) :
  (1 ≤ maxLen < Z.of_nat (length (trim s)))%Z →
  truncate s maxLen
  = trimEnd (take (Z.to_nat (maxLen - 1)) (trim s)) ++ ELLIPSIS.
Proof.
  intros [H1 Hlt]. rw /truncate.
  destruct (Z.leb_spec (Z.of_nat (length (trim s))) maxLen); [lia|].
  rw slice_0_take //. lia.
Qed.

Lemma trimEnd_split (s : jsstring) :
  ∃ ws, s = trimEnd s ++ ws ∧ Forall (λ c, is_ws c = true) ws.
Proof.
  destruct (trimStart_split (reverse s)) as [ws [Hs Hws]].
  exists (reverse ws). split; [|by apply Forall_reverse].
  rw /trimEnd -reverse_app -Hs. by rw reverse_involutive.
Qed.

(** C4 (as amended). For a bound of at least one, [truncate] returns the
    trimmed input unchanged when it has at most [maxLen] code units, and
    otherwise a prefix of at most [maxLen - 1] code units of it, cut at a
    code-unit index and stripped of the white space before the cut, followed
    by the marker; the result never ends in white space. *)
Theorem truncate_spec (s : jsstring) (maxLen : Z) :
  (1 ≤ maxLen)%Z →
  let t := trim s in
  let r := truncate s maxLen in
  (∀ c, last r = Some c → is_ws c = false)
  ∧ ((Z.of_nat (length t) ≤ maxLen)%Z → r = t)
  ∧ ((maxLen < Z.of_nat (length t))%Z →
     ∃ kept ws,
       r = kept ++ ELLIPSIS
       ∧ take (Z.to_nat (maxLen - 1)) t = kept ++ ws
       ∧ Forall (λ c, is_ws c = true) ws
       ∧ (∀ c, last kept = Some c → is_ws c = false)
       ∧ (Z.of_nat (length kept) ≤ maxLen - 1)%Z).
Proof.
  intros H1 t r. subst t r.
  destruct (decide (Z.of_nat (length (trim s)) ≤ maxLen)%Z) as [Hle|Hgt].
  - rw truncate_short; [|done]. split_and!; [apply trim_last | done | lia].
  - rw truncate_long; [|lia]. split_and!.
    + intros c. rw /ELLIPSIS last_app /=. by intros [= <-].
    + lia.
    + intros _.
      destruct (trimEnd_split (take (Z.to_nat (maxLen - 1)) (trim s)))
        as [ws [Hsplit Hws]].
      eexists _, ws. split_and!; [done | exact Hsplit | done | apply trimEnd_last |].
      pose proof (trimEnd_length (take (Z.to_nat (maxLen - 1)) (trim s))) as Hl.
      rw length_take in Hl. lia.
Qed.

Lemma truncate_spec_witness :
  (1 ≤ 5)%Z
  ∧ (∀ c, last (truncate (lit "  hello world  ") 5) = Some c → is_ws c = false)
  ∧ truncate (lit "  hello world  ") 5 = lit "hell" ++ ELLIPSIS.
Proof.
  split; [lia|].
  destruct (truncate_spec (lit "  hello world  ") 5 ltac:(lia)) as (Hlast & _ & _).
  split; [exact Hlast | reflexivity].
Defined.

(** C4 (as stated) fails: the cut is made at a code-unit index, so a
    surrogate pair lying across it is split. The input is well-formed
    UTF-16 (the pair U+1F600, then two letters); with bound 2 the result is
    the lone high surrogate followed by the marker. *)
Lemma truncate_splits_surrogate_pair :
  well_formed [0xD83D; 0xDE00; 98; 99]%Z = true
  ∧ truncate [0xD83D; 0xDE00; 98; 99]%Z 2 = 0xD83D%Z :: ELLIPSIS
  ∧ well_formed (truncate [0xD83D; 0xDE00; 98; 99]%Z 2) = false.
Proof. by vm_compute. Qed.

(** The marker is three code units in the source file, while [truncate]
    leaves room for one: a long summary comes out two over the bound. *)
Lemma truncate_over_bound :
  length (truncate (replicate 281 97%Z) 280) = 282%nat.
Proof. by vm_compute. Qed.

(** ** Identifiers *)

Lemma truthy_or_empty (a : option jsstring) :
  truthy a = negb (bool_decide (or_empty a = [])).
Proof. by destruct a as [[|c s]|]. Qed.



(** ** Tags *)

Lemma NoDup_fmap_eq {A B} (f : A → B) (l : list A) (x y : A) :
  NoDup (f <$> l) → x ∈ l → y ∈ l → f x = f y → x = y.
Proof.
  induction l as [|a l IH]; intros Hnd Hx Hy Hf; [by apply elem_of_nil in Hx|].
  rw fmap_cons in Hnd. apply NoDup_cons in Hnd as [Ha Hnd].
  apply elem_of_cons in Hx as [->|Hx]; apply elem_of_cons in Hy as [->|Hy].
  - done.
  - exfalso. apply Ha. rw Hf. by apply list_elem_of_fmap_2.
  - exfalso. apply Ha. rw -Hf. by apply list_elem_of_fmap_2.
  - by apply IH.
Qed.

Lemma pushTags_filter (rs : list rule) (t : jsstring) :
  pushTags rs t = tag <$> filter (λ r, Re.test (re r) t = true) rs.
Proof.
  rw /pushTags.
  enough (∀ acc, foldl (λ tags r, if Re.test (re r) t then tags ++ [tag r] else tags)
                   acc rs
                 = acc ++ (tag <$> filter (λ r, Re.test (re r) t = true) rs))
    as Hgen by apply (Hgen []).
  induction rs as [|r rs IH]; intros acc.
  - by rw /= app_nil_r.
  - rw filter_cons /= IH. case_decide as Ht.
    + by rw Ht fmap_cons -app_assoc.
    + by destruct (Re.test (re r) t).
Qed.

Lemma rules_tags_NoDup : NoDup (tag <$> rules).
Proof. by apply (bool_decide_unpack _); vm_compute. Qed.

(** C8. The tags of a text are the tags of the rules whose pattern matches
    its lower-cased form, in rule order: the list has no duplicates, is a
    subsequence of the rule table's tags, and holds a rule's tag exactly
    when that rule matches. *)
Theorem computeTags_ordered_once `{Host} (text : jsstring) :
  computeTags text
  = tag <$> filter (λ r, Re.test (re r) (toLowerCase text) = true) rules
  ∧ NoDup (computeTags text)
  ∧ computeTags text `sublist_of` (tag <$> rules)
  ∧ ∀ r, r ∈ rules →
      (tag r ∈ computeTags text ↔ Re.test (re r) (toLowerCase text) = true).
Proof.
  rw /computeTags pushTags_filter.
  assert (tag <$> filter (λ r, Re.test (re r) (toLowerCase text) = true) rules
          `sublist_of` (tag <$> rules)) as Hsub.
  { apply fmap_sublist, sublist_filter. }
  split_and!; [done | | done |].
  - exact (sublist_NoDup _ _ rules_tags_NoDup Hsub).
  - intros r Hr. rw list_elem_of_fmap. split.
    + intros (r' & Htag & Hr'). apply list_elem_of_filter in Hr' as [Ht Hr'].
      by rw (NoDup_fmap_eq tag rules r r' rules_tags_NoDup Hr Hr' Htag).
    + intros Ht. exists r. split; [done|]. by apply list_elem_of_filter.
Qed.

(** ** Deduplication *)

Section map_facts.
Context {K V : Type} `{EqDecision K}.
Implicit Types (m : JSMap.t (K:=K) (V:=V)) (k : K) (v : V).

Lemma get_None m k : JSMap.get k m = None ↔ k ∉ m.*1.
Proof.
  induction m as [|[k' v'] m IH]; simpl.
  - split; [intros _; apply not_elem_of_nil | done].
  - case_decide as Hk.
    + split; [done|]. intros Hn. exfalso. apply Hn. subst. apply list_elem_of_here.
    + rw IH not_elem_of_cons. split; [by intros ? | by intros [_ ?]].
Qed.

Lemma get_Some m k v : JSMap.get k m = Some v → (k, v) ∈ m.
Proof.
  induction m as [|[k' v'] m IH]; simpl; [done|].
  case_decide as Hk.
  - intros [= ->]. subst. apply list_elem_of_here.
  - intros Hg. apply list_elem_of_further. by apply IH.
Qed.

Lemma set_fresh m k v : JSMap.get k m = None → JSMap.set k v m = m ++ [(k, v)].
Proof.
  induction m as [|[k' v'] m IH]; simpl; [done|].
  case_decide; [done|]. intros Hg. by rw IH.
Qed.

Lemma set_keys m k v :
  is_Some (JSMap.get k m) → (JSMap.set k v m).*1 = m.*1.
Proof.
  induction m as [|[k' v'] m IH]; simpl.
  - by intros [? ?].
  - case_decide; [done|]. intros Hg. rw !fmap_cons IH; done.
Qed.

Lemma set_elem_of m k v k' v' :
  NoDup m.*1 → is_Some (JSMap.get k m) →
  (k', v') ∈ JSMap.set k v m ↔ (k' = k ∧ v' = v) ∨ (k' ≠ k ∧ (k', v') ∈ m).
Proof.
  induction m as [|[k0 v0] m IH]; simpl.
  - by intros _ [? ?].
  - intros [Hk0 Hnd]%NoDup_cons. case_decide as Hk.
    + intros _. subst k0. rw !elem_of_cons. split.
      * intros [[= -> ->]|Hin]; [by left|]. right. split; [|by right].
        intros ->. apply Hk0. by apply (list_elem_of_fmap_2 fst _ (k, v')).
      * intros [[-> ->]|[Hne [[= ? ?]|Hin]]]; [by left | done | by right].
    + intros Hg. rw !elem_of_cons (IH Hnd Hg). split.
      * intros [[= -> ->]|[[-> ->]|[Hne Hin]]];
          [right; split; [done | by left] | by left | right; split; [done | by right]].
      * intros [[-> ->]|[Hne [[= -> ->]|Hin]]];
          [right; by left | by left | right; right; by split].
Qed.
End map_facts.

Section dedupe_facts.
Context `{Host}.
Implicit Types (seen all : list NormalizedItem) (x v o : NormalizedItem).

Lemma wins_snoc_other seen i v x :
  wins seen i v → url x ≠ url v → wins (seen ++ [x]) i v.
Proof.
  intros [Hi Hw] Hne. split.
  - rw lookup_app_l; [done|]. by apply lookup_lt_Some in Hi.
  - intros j o [[Hj Ho]|[-> <-]]%lookup_snoc_Some Hu; [by apply Hw | done].
Qed.

Lemma wins_snoc_older seen i v x :
  wins seen i v → (stamp x < stamp v)%Z → wins (seen ++ [x]) i v.
Proof.
  intros [Hi Hw] Hlt. split.
  - rw lookup_app_l; [done|]. by apply lookup_lt_Some in Hi.
  - intros j o [[Hj Ho]|[-> <-]]%lookup_snoc_Some Hu; [by apply Hw | lia].
Qed.

Lemma wins_snoc_new seen x :
  (∀ j o, seen !! j = Some o → url o = url x → (stamp o ≤ stamp x)%Z) →
  wins (seen ++ [x]) (length seen) x.
Proof.
  intros Hle. split.
  - by apply list_lookup_middle.
  - intros j o [[Hj Ho]|[-> <-]]%lookup_snoc_Some Hu.
    + split; [by eapply Hle | lia].
    + done.
Qed.

Lemma dedupe_inv_nil : dedupe_inv [] [].
Proof.
  split_and!; [constructor | |].
  - by intros k v ?%elem_of_nil.
  - by intros o ?%elem_of_nil.
Qed.

Lemma dedupe_inv_step seen m x :
  dedupe_inv seen m → dedupe_inv (seen ++ [x]) (dedupeStep m x).
Proof.
  intros (Hnd & Hwin & Hall). rw /dedupeStep.
  destruct (JSMap.get (url x) m) as [existing|] eqn:Hget.
  - pose proof (get_Some _ _ _ Hget) as Hex.
    destruct (Hwin _ _ Hex) as [Hue [ie [Hie Hwe]]].
    assert (is_Some (JSMap.get (url x) m)) as Hsome by by rw Hget.
    fold (stamp x) (stamp existing).
    destruct (Z.leb_spec (stamp existing) (stamp x)) as [Hle|Hlt].
    + split_and!.
      * by rw (set_keys _ _ _ Hsome).
      * intros k v [[-> ->]|[Hne Hin]]%(set_elem_of _ _ _ _ _ Hnd Hsome).
        -- split; [done|]. exists (length seen). apply wins_snoc_new.
           intros j o Hj Hu. rw -Hue in Hu. destruct (Hwe j o Hj Hu). lia.
        -- destruct (Hwin _ _ Hin) as [Hu [i Hi]]. split; [done|].
           exists i. apply wins_snoc_other; [done | congruence].
      * intros o [Ho| ->%list_elem_of_singleton]%elem_of_app.
        -- rw (set_keys _ _ _ Hsome). by apply Hall.
        -- rw (set_keys _ _ _ Hsome).
           by apply (list_elem_of_fmap_2 fst _ (url x, existing)).
    + split_and!; [done | |].
      * intros k v Hin. destruct (Hwin _ _ Hin) as [Hu [i Hi]]. split; [done|].
        exists i. destruct (decide (url x = k)) as [<-|Hne].
        -- assert ((url x, v) = (url x, existing)) as [= ->]
             by by apply (NoDup_fmap_eq fst m).
           by apply wins_snoc_older.
        -- apply wins_snoc_other; [done | congruence].
      * intros o [Ho| ->%list_elem_of_singleton]%elem_of_app; [by apply Hall|].
        by apply (list_elem_of_fmap_2 fst _ (url x, existing)).
  - pose proof (proj1 (get_None _ _) Hget) as Hfresh.
    rw set_fresh; [|done]. split_and!.
    + rw fmap_app. apply NoDup_app. split_and!; [done | | apply NoDup_singleton].
      intros k Hk ->%list_elem_of_singleton. done.
    + intros k v [Hin|[= -> ->]%list_elem_of_singleton]%elem_of_app.
      * destruct (Hwin _ _ Hin) as [Hu [i Hi]]. split; [done|].
        exists i. apply wins_snoc_other; [done|].
        intros Heq. apply Hfresh. rw Heq Hu.
        by apply (list_elem_of_fmap_2 fst _ (k, v)).
      * split; [done|]. exists (length seen). apply wins_snoc_new.
        intros j o Hj Hu. exfalso. apply Hfresh. rw -Hu.
        by apply Hall, (list_elem_of_lookup_2 _ j).
    + intros o [Ho| ->%list_elem_of_singleton]%elem_of_app; rw fmap_app elem_of_app.
      * left. by apply Hall.
      * right. by apply list_elem_of_singleton.
Qed.

Lemma dedupe_inv_fold all : dedupe_inv all (foldl dedupeStep [] all).
Proof.
  induction all as [|x all IH] using rev_ind; [apply dedupe_inv_nil|].
  rw foldl_snoc. by apply dedupe_inv_step.
Qed.

End dedupe_facts.

(** ** Ranking *)

Section sort_facts.
Context {A : Type} (cmp : A → A → Z).

Hypothesis precedes_total : ∀ x y, precedes cmp x y ∨ precedes cmp y x.
Hypothesis precedes_trans :
  ∀ x y z, precedes cmp x y → precedes cmp y z → precedes cmp x z.

Lemma sort_insert_Permutation (x : A) (l : list A) :
  sort_insert cmp x l ≡ₚ x :: l.
Proof.
  induction l as [|y l IH]; simpl; [done|].
  destruct (cmp x y <=? 0)%Z; [done|]. by rw IH Permutation_swap.
Qed.

Lemma Array_sort_Permutation (l : list A) : Array_sort cmp l ≡ₚ l.
Proof.
  induction l as [|x l IH]; simpl; [done|].
  by rw sort_insert_Permutation IH.
Qed.

Lemma sort_insert_sorted (x : A) (l : list A) :
  StronglySorted (precedes cmp) l →
  StronglySorted (precedes cmp) (sort_insert cmp x l).
Proof.
  induction 1 as [|y l Hl IH Hy]; simpl.
  - apply SSorted_cons; [constructor | done].
  - destruct (Z.leb_spec (cmp x y) 0) as [Hxy|Hyx].
    + apply SSorted_cons; [by constructor|].
      constructor; [done|]. eapply Forall_impl; [exact Hy|].
      intros z Hz. by apply (precedes_trans x y z).
    + apply SSorted_cons; [done|].
      rw sort_insert_Permutation. constructor; [|done].
      destruct (precedes_total x y) as [Hb|Hb]; [rw /precedes in Hb; lia | done].
Qed.

Lemma Array_sort_sorted (l : list A) :
  StronglySorted (precedes cmp) (Array_sort cmp l).
Proof.
  induction l as [|x l IH]; simpl; [constructor | by apply sort_insert_sorted].
Qed.
End sort_facts.

Lemma StronglySorted_weaken {A} (R R' : relation A) (l : list A) :
  (∀ a b, R a b → R' a b) → StronglySorted R l → StronglySorted R' l.
Proof.
  intros HR. induction 1 as [|a l Hl IH Ha]; constructor; [done|].
  eapply Forall_impl; [exact Ha | apply HR].
Qed.

Section rank_facts.
Context `{Host}.
Implicit Types (l out : list NormalizedItem) (a b : NormalizedItem).

Lemma newestFirst_sorted l :
  StronglySorted (λ a b, (stamp b ≤ stamp a)%Z) (Array_sort newestFirst l).
Proof.
  eapply StronglySorted_weaken; last first.
  - apply (Array_sort_sorted newestFirst).
    + intros x y. rw /precedes /newestFirst. lia.
    + intros x y z. rw /precedes /newestFirst. lia.
  - intros a b. rw /precedes /newestFirst /stamp. lia.
Qed.

(** The sort is stable: items of one published instant keep their
    order. *)
Lemma newestFirst_stable l (t : Z) :
  filter (λ a, stamp a = t) (Array_sort newestFirst l)
  = filter (λ a, stamp a = t) l.
Proof.
  induction l as [|x l IH]; [done|].
  rw filter_cons -IH /=. clear IH.
  induction (Array_sort newestFirst l) as [|y s IHs]; [by rw /= filter_cons|].
  rw /= /newestFirst -/(stamp x) -/(stamp y).
  destruct (Z.leb_spec (stamp y - stamp x) 0) as [Hle|Hgt]; [by rw filter_cons|].
  rw !(filter_cons _ y) IHs.
  destruct (decide (stamp x = t)) as [Hx|Hx]; [|done].
  destruct (decide (stamp y = t)); [lia | done].
Qed.

Lemma sorted_distinct l :
  StronglySorted (λ a b, (stamp b ≤ stamp a)%Z) l → NoDup (stamp <$> l) →
  StronglySorted (λ a b, (stamp b < stamp a)%Z) l.
Proof.
  induction 1 as [|a l Hl IH Ha]; [constructor|].
  rw fmap_cons. intros [Hni Hnd]%NoDup_cons.
  constructor; [by apply IH|].
  apply Forall_forall. intros b Hb.
  pose proof (proj1 (Forall_forall _ _) Ha b Hb) as Hle. simpl in Hle.
  assert (stamp b ≠ stamp a); [|lia].
  intros Heq. apply Hni. rw -Heq. by apply list_elem_of_fmap_2.
Qed.

(** C3. With a non-negative [maxTotalItems], the ranked list has at most
    that many items and is in non-increasing published order; together
    with what it discards it is a rearrangement of the deduplicated
    items, and nothing discarded is newer than anything kept. When the
    published instants are pairwise distinct the order and the split are
    strict, so of five such items under a limit of three exactly the
    three most recent remain, newest first. *)
Theorem rank_sorted_bounded_newest (defs : Defaults) (deduped : list NormalizedItem) :
  (0 ≤ maxTotalItems defs)%Z →
  let out := rank defs deduped in
  ∃ discarded,
    out ++ discarded ≡ₚ deduped
    ∧ length out = length deduped `min` Z.to_nat (maxTotalItems defs)
    ∧ (Z.of_nat (length out) ≤ maxTotalItems defs)%Z
    ∧ StronglySorted (λ a b, (stamp b ≤ stamp a)%Z) out
    ∧ (∀ a b, a ∈ out → b ∈ discarded → (stamp b ≤ stamp a)%Z)
    ∧ (NoDup (stamp <$> deduped) →
       StronglySorted (λ a b, (stamp b < stamp a)%Z) out
       ∧ (∀ a b, a ∈ out → b ∈ discarded → (stamp b < stamp a)%Z)
       ∧ (length deduped = 5 → maxTotalItems defs = 3%Z →
          length out = 3 ∧ length discarded = 2)).
Proof.
  intros Hmax out. subst out. rw /rank slice_0_take; [|done].
  set (n := Z.to_nat (maxTotalItems defs)).
  set (sorted := Array_sort newestFirst deduped).
  pose proof (newestFirst_sorted deduped) as Hsorted. fold sorted in Hsorted.
  pose proof (Array_sort_Permutation newestFirst deduped) as Hperm.
  fold sorted in Hperm.
  assert (length sorted = length deduped) as Hlen by by rw Hperm.
  rw -(take_drop n sorted) in Hsorted.
  exists (drop n sorted). split_and!.
  - by rw take_drop.
  - rw length_take Hlen. lia.
  - rw length_take. lia.
  - by eapply StronglySorted_app_1_l.
  - intros a b Ha Hb. by eapply (StronglySorted_app_1_elem_of _ _ _ a b Hsorted).
  - intros Hnd. rw -Hperm -(take_drop n sorted) in Hnd.
    apply sorted_distinct in Hsorted; [|done]. split_and!.
    + by eapply StronglySorted_app_1_l.
    + intros a b Ha Hb. by eapply (StronglySorted_app_1_elem_of _ _ _ a b Hsorted).
    + intros H5 H3. rw length_take length_drop Hlen H5. rw /n H3. split; reflexivity.
Qed.
End rank_facts.

Lemma rank_sorted_bounded_newest_witness :
  (0 ≤ maxTotalItems (Demo.defs 40 3 []))%Z
  ∧ title <$> rank (H:=Demo.offline) (Demo.defs 40 3 []) Fixtures.five
    = [lit "fri"; lit "thu"; lit "wed"]
  ∧ StronglySorted (λ a b, (stamp (H:=Demo.offline) b < stamp (H:=Demo.offline) a)%Z)
      (rank (H:=Demo.offline) (Demo.defs 40 3 []) Fixtures.five).
Proof.
  assert (0 ≤ maxTotalItems (Demo.defs 40 3 []))%Z as Hmax by (simpl; lia).
  split; [exact Hmax|]. split; [reflexivity|].
  destruct (rank_sorted_bounded_newest (H:=Demo.offline) (Demo.defs 40 3 [])
              Fixtures.five Hmax) as (discarded & _ & _ & _ & _ & _ & Hstrict).
  apply Hstrict. apply (bool_decide_unpack _). vm_compute. reflexivity.
Defined.

(** ** Keyword gating and the per-feed cap *)

Section filter_facts.
Context `{Host}.
Implicit Types (text kw : jsstring) (ks : list jsstring).

Lemma existsb_mentions text ks :
  existsb (λ n, includes (toLowerCase text) (toLowerCase n)) ks = true
  ↔ ∃ kw, kw ∈ ks ∧ mentions text kw.
Proof.
  rw existsb_exists. split.
  - intros (kw & Hin & Hinc). exists kw. split; [by apply list_elem_of_In|].
    by apply includes_spec.
  - intros (kw & Hin & Hm). exists kw. split; [by apply list_elem_of_In|].
    by apply includes_spec.
Qed.

Lemma containsAny_spec text ks :
  ks ≠ [] →
  containsAny text (Some ks) = true ↔ ∃ kw, kw ∈ ks ∧ mentions text kw.
Proof. destruct ks; [done|]. intros _. apply existsb_mentions. Qed.

Lemma excludedByAny_spec text ks :
  excludedByAny text (Some ks) = true ↔ ∃ kw, kw ∈ ks ∧ mentions text kw.
Proof.
  destruct ks as [|k ks]; [|apply existsb_mentions].
  split; [done|]. by intros (kw & ?%elem_of_nil & _).
Qed.

Lemma nonEmpty_spec (l : option (list jsstring)) :
  nonEmpty l = true ↔ ∃ ks, l = Some ks ∧ ks ≠ [].
Proof.
  destruct l as [[|k ks]|]; simpl; split; try done.
  - by intros (ks & [= <-] & ?).
  - intros _. by exists (k :: ks).
  - by intros (ks & ? & ?).
Qed.

Lemma include_gate text (inc : option (list jsstring)) :
  nonEmpty inc && negb (containsAny text inc) = false
  ↔ ∀ ks, inc = Some ks → ks ≠ [] → ∃ kw, kw ∈ ks ∧ mentions text kw.
Proof.
  destruct (nonEmpty inc) eqn:Hinc; simpl.
  - apply nonEmpty_spec in Hinc as (ks & -> & Hnil).
    rw negb_false_iff containsAny_spec; [|done]. split.
    + by intros Hm ks' [= <-] _.
    + intros Hp. by apply Hp.
  - split; [|done]. intros _ ks -> Hnil.
    by destruct ks.
Qed.

Lemma exclude_gate text (exc : option (list jsstring)) :
  nonEmpty exc && excludedByAny text exc = false
  ↔ ∀ ks, exc = Some ks → ¬ ∃ kw, kw ∈ ks ∧ mentions text kw.
Proof.
  destruct exc as [es|]; [|by split].
  destruct (decide (es = [])) as [->|Hnil].
  - split; [|done]. by intros _ ks [= <-] (kw & ?%elem_of_nil & _).
  - assert (nonEmpty (Some es) = true) as -> by by destruct es.
    rw andb_true_l -not_true_iff_false excludedByAny_spec. split.
    + by intros Hm ks [= <-].
    + intros Hp. by apply Hp.
Qed.

Lemma entryStep_unfold (defs : Defaults) (feedDef : FeedDef)
    (now : jsstring) (normalized : list NormalizedItem) (it : RawEntry) :
  let n := normalizeItem feedDef it (stripUrlParams defs) now in
  let text := title n ++ lit " " ++ summary n in
  entryStep defs feedDef now normalized it
  = if negb (truthy (url n)) then normalized
    else if nonEmpty (includeOf feedDef)
            && negb (containsAny text (includeOf feedDef)) then normalized
    else if nonEmpty (excludeOf feedDef)
            && excludedByAny text (excludeOf feedDef) then normalized
    else normalized ++ [n].
Proof. done. Qed.

(** C5. An item that has a URL survives the keyword gate exactly when it
    passes both checks: a non-empty include list must have a keyword that
    occurs in the lower-cased title-and-summary text, and no keyword of
    the exclude list may occur in it; absent or empty lists ask nothing.
    An item that does not survive leaves the list as it was. With
    include [privacy] and exclude [gdpr]: both words, dropped; only
    [privacy], kept; neither, dropped. *)
Theorem keyword_filter_iff (defs : Defaults) (feedDef : FeedDef)
    (now : jsstring) (normalized : list NormalizedItem) (it : RawEntry) :
  let n := normalizeItem feedDef it (stripUrlParams defs) now in
  let text := title n ++ lit " " ++ summary n in
  let passes_include :=
    ∀ ks, includeOf feedDef = Some ks → ks ≠ [] →
          ∃ kw, kw ∈ ks ∧ mentions text kw in
  let passes_exclude :=
    ∀ ks, excludeOf feedDef = Some ks → ¬ ∃ kw, kw ∈ ks ∧ mentions text kw in
  truthy (url n) = true →
  (entryStep defs feedDef now normalized it = normalized ++ [n]
   ↔ passes_include ∧ passes_exclude)
  ∧ (entryStep defs feedDef now normalized it = normalized
     ∨ entryStep defs feedDef now normalized it = normalized ++ [n])
  ∧ Fixtures.kept "Privacy rules under GDPR" = []
  ∧ Fixtures.kept "A new Privacy sandbox" = [lit "A new Privacy sandbox"]
  ∧ Fixtures.kept "Quarterly earnings" = [].
Proof.
  intros n text passes_include passes_exclude Hurl.
  subst passes_include passes_exclude.
  assert (normalized ≠ normalized ++ [n]) as Hne.
  { intros Heq. apply (f_equal length) in Heq. rw length_app /= in Heq. lia. }
  pose proof (include_gate text (includeOf feedDef)) as Hinc.
  pose proof (exclude_gate text (excludeOf feedDef)) as Hexc.
  rw entryStep_unfold. fold n text. rw Hurl.
  change (negb true) with false. cbv iota.
  destruct (nonEmpty (includeOf feedDef) && _);
    destruct (nonEmpty (excludeOf feedDef) && _);
    (split_and!; [| |by vm_compute..]).
  all: try (by left). all: try (by right).
  - split; [done|]. intros [Hpi _]. by apply Hinc in Hpi.
  - split; [done|]. intros [Hpi _]. by apply Hinc in Hpi.
  - split; [done|]. intros [_ Hpe]. by apply Hexc in Hpe.
  - split; [|done]. intros _. split; [by apply Hinc | by apply Hexc].
Qed.
End filter_facts.

(** Case analysis on every condition of a chain of [if]s. *)
Ltac case_ifs :=
  repeat match goal with
         | |- context [if ?b then _ else _] => destruct b
         end.

Section feed_facts.
Context `{Host}.
Implicit Types (defs : Defaults) (feedDef f : FeedDef) (now : jsstring).

Lemma entryStep_push defs feedDef now (normalized : list NormalizedItem) it :
  entryStep defs feedDef now normalized it
  = normalized ++ entryStep defs feedDef now [] it.
Proof.
  rw !entryStep_unfold. case_ifs; by rw ?app_nil_r.
Qed.

Lemma entryStep_length defs feedDef now it :
  length (entryStep defs feedDef now [] it) ≤ 1.
Proof.
  rw entryStep_unfold. case_ifs; simpl; lia.
Qed.

Lemma entries_fold defs feedDef now (normalized : list NormalizedItem)
    (its : list RawEntry) :
  foldl (entryStep defs feedDef now) normalized its
  = normalized ++ (its ≫= entryStep defs feedDef now []).
Proof.
  revert normalized. induction its as [|it its IH]; intros normalized.
  - by rw /= app_nil_r.
  - rw bind_cons /= IH entryStep_push. by rw app_assoc.
Qed.

Lemma entries_length defs feedDef now (its : list RawEntry) :
  length (its ≫= entryStep defs feedDef now []) ≤ length its.
Proof.
  induction its as [|it its IH]; [done|].
  rw bind_cons length_app /=.
  pose proof (entryStep_length defs feedDef now it). lia.
Qed.

(** C10. With a non-negative cap, a feed's contribution is computed from
    its first [maxItems] raw entries only: each of those gives one item
    or none (no URL, or stopped by the keyword gate), in order, so the
    contribution has at most [maxItems] items and does not change with
    the entries after the cap. In the fixture the cap is two, the first
    entry has no link, and the feed contributes one item although the
    third entry would pass on its own. *)
Theorem per_feed_cap_before_filter defs feedDef now (parsed : ParsedFeed) :
  (0 ≤ maxItemsOf defs feedDef)%Z →
  let its := default [] (items parsed) in
  let cap := Z.to_nat (maxItemsOf defs feedDef) in
  feedItems defs feedDef now parsed
  = take cap its ≫= entryStep defs feedDef now []
  ∧ length (feedItems defs feedDef now parsed) ≤ cap
  ∧ (∀ parsed', take cap (default [] (items parsed')) = take cap its →
       feedItems defs feedDef now parsed' = feedItems defs feedDef now parsed)
  ∧ maxItemsOf (Demo.defs 40 700 []) Fixtures.capped = 2%Z
  ∧ Fixtures.contribution Fixtures.three = [lit "second"]
  ∧ Fixtures.contribution (drop 2 Fixtures.three) = [lit "third"].
Proof.
  intros Hcap its cap.
  assert (∀ p, feedItems defs feedDef now p
               = take cap (default [] (items p)) ≫= entryStep defs feedDef now [])
    as Hfeed.
  { intros p. rw /feedItems slice_0_take; [|done]. by rw entries_fold. }
  split_and!; [apply Hfeed | | | by vm_compute..].
  - rw Hfeed. etrans; [apply entries_length|]. rw length_take. lia.
  - intros parsed' Heq. by rw !Hfeed Heq.
Qed.

(** *** Failing feeds *)

(** What one feed adds to the run. *)
Lemma feedStep_frame defs now (st : RunState) f :
  feedStep defs now st f
  = match parseFeedFromUrl (feed_url f) (timeoutMs defs) (userAgent defs) with
    | inr parsed =>
        {| st_errors := st_errors st;
           st_all := st_all st ++ feedItems defs f now parsed |}
    | inl e =>
        {| st_errors := st_errors st ++ [errorRecord f e];
           st_all := st_all st |}
    end.
Proof. done. Qed.

Lemma feeds_fold_app defs now (st : RunState) (fs : list FeedDef) :
  let fresh := foldl (feedStep defs now) {| st_errors := []; st_all := [] |} fs in
  foldl (feedStep defs now) st fs
  = {| st_errors := st_errors st ++ st_errors fresh;
       st_all := st_all st ++ st_all fresh |}.
Proof.
  induction fs as [|f fs IH] using rev_ind; simpl.
  - rw !app_nil_r. by destruct st.
  - rw !foldl_snoc IH !feedStep_frame.
    destruct (parseFeedFromUrl _ _ _); simpl; by rw ?app_assoc.
Qed.

(** A feed fails when the request throws, when the response is not a
    success, or when the parser throws. *)
Lemma parseFeedFromUrl_fails (u : jsstring) (timeout : Z) (agent : jsstring) e :
  parseFeedFromUrl u timeout agent = inl e
  ↔ fetchText u timeout agent = inl e
    ∨ ∃ xml, fetchText u timeout agent = inr xml
             ∧ Parser_parseString xml = inl e.
Proof.
  rw /parseFeedFromUrl. destruct (fetchText u timeout agent) as [e'|xml]; simpl.
  - split; [intros [= ->]; by left | by intros [[= ->]|(? & ? & ?)]].
  - split; [intros Hp; right; by exists xml|].
    by intros [?|(xml' & [= <-] & ?)].
Qed.

(** C7. A feed whose fetch or parse throws adds no item and exactly one
    error record, built from its id, name and URL and the thrown value's
    message: the collected items, and so the ranked output, are those of
    the run without that feed, and the error list is that of the feeds
    before it, then its record, then that of the feeds after it. When the
    file system does not fail, the run writes both files. *)
Theorem failed_feed_isolated defs now (stamp : jsstring)
    (feeds1 feeds2 : list FeedDef) f (e : Thrown) :
  parseFeedFromUrl (feed_url f) (timeoutMs defs) (userAgent defs) = inl e →
  let cfg := {| defaults := defs; feeds := feeds1 ++ f :: feeds2 |} in
  let rest := {| defaults := defs; feeds := feeds1 ++ feeds2 |} in
  let errors_of fs := st_errors (collect {| defaults := defs; feeds := fs |} now) in
  st_all (collect cfg now) = st_all (collect rest now)
  ∧ out_news (build cfg now stamp) = out_news (build rest now stamp)
  ∧ errors_of (feeds1 ++ f :: feeds2)
    = errors_of feeds1
      ++ {| err_id := feed_id f; err_name := feed_name f; err_url := feed_url f;
            err_error := if truthy (message e) then or_empty (message e)
                         else rendering e |}
      :: errors_of feeds2
  ∧ errors (out_meta (build cfg now stamp)) = errors_of (feeds1 ++ f :: feeds2)
  ∧ ∀ disk faults,
      mkdir_fault faults = None → news_fault faults = None →
      meta_fault faults = None →
      main cfg now stamp faults disk
      = ({| news_json := Some (out_news (build cfg now stamp));
            meta_json := Some (out_meta (build cfg now stamp)) |}, None).
Proof.
  intros Hfail cfg rest errors_of.
  assert (∀ fs, collect {| defaults := defs; feeds := fs |} now
                = foldl (feedStep defs now) {| st_errors := []; st_all := [] |} fs)
    as Hcollect by done.
  assert (collect cfg now
          = {| st_errors := errors_of feeds1 ++ errorRecord f e :: errors_of feeds2;
               st_all := st_all (collect rest now) |}) as Hrun.
  { rw /errors_of !Hcollect /rest /cfg !foldl_app /=.
    rw (feeds_fold_app _ _ (feedStep _ _ _ _)) feedStep_frame Hfail /=.
    rw (feeds_fold_app _ _ (foldl _ _ feeds1)).
    by rw -app_assoc. }
  split_and!.
  - by rw Hrun.
  - by rw /build Hrun.
  - by rw /errors_of -/cfg Hrun.
  - done.
  - intros disk faults Hm Hn Hme. by rw /main Hm /persist Hn Hme.
Qed.
End feed_facts.

(** ** The two writes *)

Section write_facts.
Context `{Host}.

End write_facts.


(** ** URL resolution *)

Section url_facts.
Context `{Host}.
Implicit Types (u : URL.t) (raw p : jsstring) (strip : list jsstring).

Lemma rawLink_first_present (it : RawEntry) :
  rawLink it
  = if truthy (raw_link it) then raw_link it
    else if truthy (raw_guid it) then raw_guid it
    else match raw_links it with
         | Some (first :: _) => first
         | _ => None
         end.
Proof. done. Qed.

Lemma cleanUrl_absent (o : option jsstring) strip :
  truthy o = false → cleanUrl o strip = None.
Proof. intros Ho. by rw /cleanUrl Ho. Qed.

(** An entry without any link candidate never reaches the output. *)
Lemma entry_without_link_dropped (defs : Defaults) (feedDef : FeedDef)
    (now : jsstring) (normalized : list NormalizedItem) (it : RawEntry) :
  truthy (rawLink it) = false →
  entryStep defs feedDef now normalized it = normalized.
Proof.
  intros Hno. rw entryStep_unfold.
  change (url (normalizeItem feedDef it (stripUrlParams defs) now))
    with (cleanUrl (rawLink it) (stripUrlParams defs)).
  by rw cleanUrl_absent.
Qed.

(** A candidate that does not parse is passed through unchanged. *)
Lemma cleanUrl_unparseable raw strip :
  raw ≠ [] → URL_parse raw = None → cleanUrl (Some raw) strip = Some raw.
Proof.
  intros Hraw Hparse. destruct raw as [|c raw]; [done|].
  by rw /cleanUrl /= Hparse.
Qed.

Lemma strip_all_fragment strip u :
  URL.fragment (strip_all strip u) = URL.fragment u.
Proof.
  induction strip as [|p strip IH] using rev_ind; [done|].
  by rw /strip_all foldl_snoc /= -/(strip_all strip u).
Qed.

Lemma strip_all_base strip u : URL.base (strip_all strip u) = URL.base u.
Proof.
  induction strip as [|p strip IH] using rev_ind; [done|].
  by rw /strip_all foldl_snoc /= -/(strip_all strip u).
Qed.

(** Every configured parameter is gone, and only those. *)
Lemma strip_all_params strip u (k v : jsstring) :
  (k, v) ∈ URL.searchParams (strip_all strip u)
  ↔ (k, v) ∈ URL.searchParams u ∧ k ∉ strip.
Proof.
  induction strip as [|p strip IH] using rev_ind.
  - split; [intros Hin; split; [done | apply not_elem_of_nil] | by intros [? _]].
  - rw /strip_all foldl_snoc /= -/(strip_all strip u).
    rw list_elem_of_filter IH not_elem_of_app list_elem_of_singleton /=.
    split; [intros (? & ? & ?) | intros (? & ? & ?)]; done.
Qed.

(** The query is dropped when no parameter is left. *)
Lemma serialize_nil_query p u :
  URL.searchParams (URL.searchParams_delete URL_encode p u) = [] →
  URL.query (URL.searchParams_delete URL_encode p u) = None.
Proof. rw /URL.searchParams_delete /=. by intros ->. Qed.

(** [u.hash] is never the bare marker, so the test that would clear it
    never succeeds. *)
Lemma hash_never_bare u : URL.hash u ≠ lit "#".
Proof. rw /URL.hash. by destruct (URL.fragment u) as [[|c [|d f]]|]. Qed.

(** What [cleanUrl] returns for a candidate that parses. *)
Lemma cleanUrl_parsed raw strip u :
  raw ≠ [] → URL_parse raw = Some u →
  let u1 := strip_all strip u in
  let u2 := if bool_decide (length (URL.keys u1) = 0)
            then URL.clear_search u1 else u1 in
  cleanUrl (Some raw) strip = Some (URL.toString u2)
  ∧ (∀ k v, (k, v) ∈ URL.searchParams u2
            ↔ (k, v) ∈ URL.searchParams u ∧ k ∉ strip)
  ∧ (URL.searchParams u2 = [] → URL.query u2 = None)
  ∧ URL.fragment u2 = URL.fragment u.
Proof.
  intros Hraw Hparse u1 u2. destruct raw as [|c raw]; [done|].
  rw /cleanUrl /= Hparse -/(strip_all strip u) -/u1 -/u2.
  rw (bool_decide_eq_false_2 _ (hash_never_bare u2)).
  split_and!; [done | | |].
  - intros k v. rw -(strip_all_params strip u k v) -/u1 /u2.
    case_bool_decide as Hk; [|done].
    rw /URL.keys length_fmap in Hk. apply nil_length_inv in Hk.
    by rw /= Hk.
  - rw /u2. case_bool_decide as Hk; [done|].
    intros Hnil. by rw /URL.keys Hnil in Hk.
  - rw /u2 -(strip_all_fragment strip u) -/u1. by case_bool_decide.
Qed.

(** C6, the part the script misses. A candidate that parses to a URL with
    an empty fragment (a bare [#]) keeps the marker: the cleaned URL
    still ends in [#]. *)
Theorem cleanUrl_keeps_bare_fragment raw strip u :
  raw ≠ [] → URL_parse raw = Some u → URL.fragment u = Some [] →
  ∃ front, cleanUrl (Some raw) strip = Some (front ++ lit "#").
Proof.
  intros Hraw Hparse Hfrag.
  destruct (cleanUrl_parsed raw strip u Hraw Hparse) as (-> & _ & _ & Hf).
  rw /URL.toString Hf Hfrag. eexists. by rw app_assoc.
Qed.
End url_facts.

(** The failing input of C6, evaluated: the link keeps its bare [#]. *)
Lemma cleanUrl_bare_fragment_example :
  cleanUrl (H:=Demo.offline) (Some (lit "https://example.com/a#")) [lit "utm_source"]
  = Some (lit "https://example.com/a#").
Proof. reflexivity. Qed.

(** Its consequence: two links to one page that differ by a bare [#] get
    different canonical URLs, hence are not merged and carry different
    identifiers. *)
Lemma bare_fragment_splits_identity :
  let a := cleanUrl (H:=Demo.offline) (Some (lit "https://example.com/a")) [] in
  let b := cleanUrl (H:=Demo.offline) (Some (lit "https://example.com/a#")) [] in
  a ≠ b ∧ fnv1a (or_empty a) = lit "0176574f" ∧ fnv1a (or_empty b) ≠ fnv1a (or_empty a).
Proof. by vm_compute. Qed.

Lemma cleanUrl_keeps_bare_fragment_witness :
  lit "https://example.com/a#" ≠ []
  ∧ URL_parse (Host:=Demo.offline) (lit "https://example.com/a#")
    = Some (URL.Make (lit "https://example.com/a") None [] (Some []))
  ∧ ∃ front,
      cleanUrl (H:=Demo.offline) (Some (lit "https://example.com/a#"))
        [lit "utm_source"]
      = Some (front ++ lit "#").
Proof.
  assert (lit "https://example.com/a#" ≠ []) as Hraw by done.
  assert (URL_parse (Host:=Demo.offline) (lit "https://example.com/a#")
          = Some (URL.Make (lit "https://example.com/a") None [] (Some [])))
    as Hparse by reflexivity.
  split; [exact Hraw|]. split; [exact Hparse|].
  exact (cleanUrl_keeps_bare_fragment (H:=Demo.offline) _ [lit "utm_source"] _
           Hraw Hparse eq_refl).
Defined.

(** ** Worked instances *)


Lemma keyword_filter_iff_witness :
  let it := Demo.entry "Weekly note" "https://example.com/post"
              "2024-01-01T08:00:00.000Z" "A new Privacy sandbox" in
  let n := normalizeItem (H:=Demo.offline) Fixtures.gated it [] Fixtures.now in
  truthy (url n) = true
  ∧ (entryStep (H:=Demo.offline) (Demo.defs 40 700 []) Fixtures.gated
       Fixtures.now [] it = [n]
     ↔ (∀ ks, includeOf Fixtures.gated = Some ks → ks ≠ [] →
          ∃ kw, kw ∈ ks
                ∧ mentions (H:=Demo.offline) (title n ++ lit " " ++ summary n) kw)
       ∧ (∀ ks, excludeOf Fixtures.gated = Some ks →
            ¬ ∃ kw, kw ∈ ks
                    ∧ mentions (H:=Demo.offline) (title n ++ lit " " ++ summary n) kw)).
Proof.
  intros it n.
  assert (truthy (url n) = true) as Hurl by reflexivity.
  split; [exact Hurl|].
  exact (proj1 (keyword_filter_iff (H:=Demo.offline) (Demo.defs 40 700 [])
                  Fixtures.gated Fixtures.now [] it Hurl)).
Defined.

Lemma per_feed_cap_before_filter_witness :
  (0 ≤ maxItemsOf (Demo.defs 40 700 []) Fixtures.capped)%Z
  ∧ length (feedItems (H:=Demo.offline) (Demo.defs 40 700 []) Fixtures.capped
              Fixtures.now {| items := Some Fixtures.three |}) ≤ 2.
Proof.
  assert (0 ≤ maxItemsOf (Demo.defs 40 700 []) Fixtures.capped)%Z as Hcap
    by (vm_compute; discriminate).
  split; [exact Hcap|].
  exact (proj1 (proj2 (per_feed_cap_before_filter (H:=Demo.offline)
                         (Demo.defs 40 700 []) Fixtures.capped Fixtures.now
                         {| items := Some Fixtures.three |} Hcap))).
Defined.

Lemma failed_feed_isolated_witness :
  let defs := Demo.defs 40 700 [lit "utm_source"] in
  parseFeedFromUrl (H:=Fixtures.world) (feed_url Fixtures.down)
    (timeoutMs defs) (userAgent defs) = inl Demo.unreachable
  ∧ st_all (collect (H:=Fixtures.world)
              {| defaults := defs; feeds := [Fixtures.down; Fixtures.up] |}
              Fixtures.now)
    = st_all (collect (H:=Fixtures.world)
                {| defaults := defs; feeds := [Fixtures.up] |} Fixtures.now).
Proof.
  intros defs.
  assert (parseFeedFromUrl (H:=Fixtures.world) (feed_url Fixtures.down)
            (timeoutMs defs) (userAgent defs) = inl Demo.unreachable)
    as Hdown by reflexivity.
  split; [exact Hdown|].
  exact (proj1 (failed_feed_isolated (H:=Fixtures.world) defs Fixtures.now
                  Fixtures.later [] [Fixtures.up] Fixtures.down
                  Demo.unreachable Hdown)).
Defined.

(** The run of the fixture: one feed down, one up. *)
Lemma fixture_run :
  let out := build (H:=Fixtures.world) Fixtures.cfg Fixtures.now Fixtures.later in
  (url <$> out_news out) = [Some (lit "https://example.com/a")]
  ∧ (tags <$> out_news out) = [[lit "RTB"]]
  ∧ (err_id <$> errors (out_meta out)) = [lit "down"]
  ∧ (err_error <$> errors (out_meta out)) = [lit "fetch failed"]
  ∧ feedCount (out_meta out) = 2
  ∧ itemCount (out_meta out) = 1
  ∧ main (H:=Fixtures.world) Fixtures.cfg Fixtures.now Fixtures.later
      Fixtures.no_faults Fixtures.old_disk
    = ({| news_json := Some (out_news out); meta_json := Some (out_meta out) |},
       None).
Proof. by vm_compute. Qed.

(** * Further properties *)

(** ** Numerals *)

Section numeral_facts.
Variable radix : Z.
Hypothesis radix_range : (2 ≤ radix ≤ 36)%Z.

Lemma digit_value_digit (d : Z) : (0 ≤ d < 36)%Z → digit_value (digit d) = d.
Proof.
  intros Hd. rw /digit /digit_value.
  destruct (Z.ltb_spec d 10), (Z.leb_spec (48 + d) 57), (Z.leb_spec (87 + d) 57); lia.
Qed.

Lemma digits_value (fuel : nat) (n : Z) (acc : jsstring) :
  (0 ≤ n < radix ^ Z.of_nat fuel)%Z →
  number_of radix (digits fuel radix n acc)
  = foldl (λ a c, a * radix + digit_value c)%Z n acc.
Proof.
  rw /number_of. revert n acc. induction fuel as [|fuel IH]; intros n acc Hn.
  - simpl in *. by assert (n = 0)%Z as -> by lia.
  - rw Nat2Z.inj_succ Z.pow_succ_r in Hn; [|lia].
    assert (0 ≤ n mod radix < radix)%Z as Hmod by (apply Z.mod_pos_bound; lia).
    assert (n = radix * (n / radix) + n mod radix)%Z as Hdiv
      by (apply Z.div_mod; lia).
    assert (0 ≤ n / radix)%Z as Hq by (apply Z.div_pos; lia).
    simpl. destruct (Z.eqb_spec (n / radix) 0) as [Hz|Hnz].
    + rw /= digit_value_digit; [|lia]. f_equal. lia.
    + rw IH.
      * rw /= digit_value_digit; [|lia]. f_equal. lia.
      * split; [done|]. apply Z.div_lt_upper_bound; lia.
Qed.

Lemma digits_length (fuel : nat) (n : Z) (acc : jsstring) (k : nat) :
  (0 ≤ n < radix ^ Z.of_nat k)%Z → 1 ≤ k →
  length (digits fuel radix n acc) ≤ length acc + k.
Proof.
  revert n acc k. induction fuel as [|fuel IH]; intros n acc k Hn Hk; simpl; [lia|].
  destruct (Z.eqb_spec (n / radix) 0) as [Hz|Hnz]; simpl; [lia|].
  destruct k as [|[|k]]; [lia| |].
  - exfalso. apply Hnz. apply Z.div_small. simpl in Hn. lia.
  - etrans; [apply (IH _ _ (S k))|simpl; lia]; [|lia].
    rw (Nat2Z.inj_succ (S k)) Z.pow_succ_r in Hn; [|lia].
    split; [apply Z.div_pos; lia|]. apply Z.div_lt_upper_bound; lia.
Qed.

Lemma digits_Forall (P : Z → Prop) (fuel : nat) (n : Z) (acc : jsstring) :
  (∀ d, (0 ≤ d < radix)%Z → P (digit d)) → Forall P acc →
  Forall P (digits fuel radix n acc).
Proof.
  intros HP. revert n acc. induction fuel as [|fuel IH]; intros n acc Hacc; [done|].
  assert (P (digit (n mod radix))) by (apply HP, Z.mod_pos_bound; lia).
  simpl. destruct (n / radix =? 0)%Z; [by constructor|].
  apply IH. by constructor.
Qed.

Lemma fuel_enough (n : Z) :
  (0 ≤ n)%Z → (n < radix ^ Z.of_nat (S (Z.to_nat (Z.log2 n))))%Z.
Proof.
  intros Hn. rw Nat2Z.inj_succ Z2Nat.id; [|apply Z.log2_nonneg].
  destruct (decide (n = 0%Z)) as [->|Hnz].
  - apply Z.pow_pos_nonneg; [lia | by vm_compute].
  - pose proof (Z.log2_spec n ltac:(lia)) as [_ Hlt].
    eapply Z.lt_le_trans; [exact Hlt|].
    apply Z.pow_le_mono_l. lia.
Qed.

(** Reading back what [toString(radix)] prints gives the number. *)
Lemma toStringRadix_value (n : Z) :
  (0 ≤ n)%Z → number_of radix (toStringRadix radix n) = n.
Proof.
  intros Hn. rw /toStringRadix digits_value; [done|].
  split; [done | by apply fuel_enough].
Qed.
End numeral_facts.

Lemma number_of_zeros (radix : Z) (k : nat) (s : jsstring) :
  number_of radix (replicate k 48%Z ++ s) = number_of radix s.
Proof.
  rw /number_of foldl_app. f_equal.
  induction k as [|k IH]; [done|]. by rw /= Z.mul_0_l Z.add_0_l.
Qed.

(** ** The identifier's format *)

(** X1. An identifier is always exactly eight characters, each a
    lower-case hexadecimal digit, and read as a hexadecimal numeral it is
    the unsigned 32-bit value of the hash: padding and printing lose
    nothing. *)
Theorem fnv1a_format (str : jsstring) :
  length (fnv1a str) = 8
  ∧ Forall (λ c, is_hex c = true) (fnv1a str)
  ∧ number_of 16 (fnv1a str) = ushr0 (foldl fnv1a_step 0x811c9dc5%Z str)
  ∧ (0 ≤ number_of 16 (fnv1a str) < 2 ^ 32)%Z.
Proof.
  rw /fnv1a /padStart.
  set (n := ushr0 (foldl fnv1a_step 0x811c9dc5%Z str)).
  assert (0 ≤ n < 2 ^ 32)%Z as Hn by (apply Z.mod_pos_bound; lia).
  assert (length (toStringRadix 16 n) ≤ 8) as Hlen.
  { apply (digits_length 16 ltac:(lia) _ n [] 8); [|lia].
    change (16 ^ Z.of_nat 8)%Z with (2 ^ 32)%Z. lia. }
  assert (number_of 16 (replicate (8 - length (toStringRadix 16 n)) 48%Z
                          ++ toStringRadix 16 n) = n) as Hval.
  { rw number_of_zeros. apply toStringRadix_value; lia. }
  split_and!.
  - rw length_app length_replicate. lia.
  - apply Forall_app. split; [by apply Forall_replicate|].
    apply (digits_Forall 16 ltac:(lia)); [|done].
    intros d Hd. rw /digit /is_hex.
    destruct (Z.ltb_spec d 10); apply orb_true_iff; [left | right];
      apply andb_true_iff; split; lia.
  - done.
  - rw Hval. lia.
  - rw Hval. lia.
Qed.

(** ** Cleaned text *)

Section clean_facts.
Implicit Types (s t r : jsstring) (c d : Z) (k : nat).

Lemma ws_run_spec s :
  Forall (λ c, is_ws c = true) (take (ws_run s) s)
  ∧ ∀ d, head (drop (ws_run s) s) = Some d → is_ws d = false.
Proof.
  induction s as [|c s [IH1 IH2]]; simpl.
  - split; [constructor | done].
  - destruct (is_ws c) eqn:Hc; simpl.
    + split; [by constructor | done].
    + split; [constructor | by intros d [= <-]].
Qed.

Lemma collapsed_nil : collapsed [].
Proof. intros pre c post Heq. by destruct pre. Qed.

Lemma collapsed_cons c s :
  collapsed (c :: s)
  ↔ (is_ws c = true → c = 32%Z ∧ ∀ d, head s = Some d → is_ws d = false)
    ∧ collapsed s.
Proof.
  split.
  - intros Hc. split.
    + intros Hws. by apply (Hc [] c s).
    + intros pre x post -> Hws. by apply (Hc (c :: pre) x post).
  - intros [Hhead Htail] pre x post Heq Hws.
    destruct pre as [|c' pre]; injection Heq as -> ->.
    + by apply Hhead.
    + by apply (Htail pre x post).
Qed.

Lemma collapsed_infix (a r b : jsstring) : collapsed (a ++ r ++ b) → collapsed r.
Proof.
  intros Hc pre c post -> Hws.
  destruct (Hc (a ++ pre) c (post ++ b)) as [-> Hnext]; [|done|].
  - by rw -!app_assoc.
  - split; [done|]. intros d Hd. apply Hnext. by destruct post.
Qed.

Lemma trim_infix s : ∃ a b, s = a ++ trim s ++ b.
Proof.
  destruct (trimStart_split s) as [a [Ha _]].
  destruct (trimEnd_split (trimStart s)) as [b [Hb _]].
  exists a, b. by rw /trim -Hb.
Qed.

Lemma trim_sublist s : trim s `sublist_of` s.
Proof.
  destruct (trim_infix s) as (a & b & Hs). rw {2}Hs.
  by apply sublist_inserts_l, sublist_inserts_r.
Qed.

(** Replacing white-space runs: what comes out is collapsed, and keeps
    every unit that is not white space. *)
Lemma replace_ws_collapsed s k :
  Forall (λ c, is_ws c = true) (take k s) →
  collapsed (Re.replace_go m_ws k s)
  ∧ ((∀ d, head (drop k s) = Some d → is_ws d = false) →
     ∀ d, head (Re.replace_go m_ws k s) = Some d → is_ws d = false).
Proof.
  revert k. induction s as [|c s IH]; intros k Hk.
  - split; [apply collapsed_nil | done].
  - destruct k as [|k].
    + rw /= /m_ws /=. destruct (is_ws c) eqn:Hc.
      * destruct (ws_run_spec s) as [Hrun Hstop].
        destruct (IH (ws_run s) Hrun) as [IHc IHh].
        change (lit " " ++ ?x) with (32%Z :: x). split.
        -- apply collapsed_cons. split; [|done]. intros _. split; [done|].
           by apply IHh.
        -- intros Hhead. by rw (Hhead c eq_refl) in Hc.
      * destruct (IH 0 ltac:(constructor)) as [IHc _]. split.
        -- apply collapsed_cons. split; [|done]. intros Hws. congruence.
        -- by intros _ d [= <-].
    + apply Forall_cons in Hk as [_ Hk]. by apply IH.
Qed.

Lemma replace_ws_keeps s k :
  Forall (λ c, is_ws c = true) (take k s) →
  filter (λ c, is_ws c = false) (Re.replace_go m_ws k s)
  = filter (λ c, is_ws c = false) s.
Proof.
  revert k. induction s as [|c s IH]; intros k Hk; [done|].
  destruct k as [|k].
  - rw /= /m_ws /=. destruct (is_ws c) eqn:Hc.
    + destruct (ws_run_spec s) as [Hrun _].
      change (lit " " ++ ?x) with (32%Z :: x).
      rw !filter_cons Hc /= IH; done.
    + rw !filter_cons Hc /=. by rw IH; [|constructor].
  - apply Forall_cons in Hk as [Hc Hk].
    rw filter_cons Hc /=. by apply IH.
Qed.

Lemma sublist_filter_mono {A} (P : A → Prop) `{∀ x, Decision (P x)}
    (l1 l2 : list A) :
  l1 `sublist_of` l2 → filter P l1 `sublist_of` filter P l2.
Proof.
  induction 1 as [|x l1 l2 _ IH|x l1 l2 _ IH]; [done| |].
  - rw !filter_cons. case_decide; [by apply sublist_skip | done].
  - rw filter_cons. case_decide; [by apply sublist_cons | done].
Qed.

Lemma replace_ws_tagfree s : tagfree s → tagfree (Re.replaceAll m_ws s).
Proof.
  intros Hs Hsub. apply Hs.
  apply (sublist_filter_mono (λ c, is_ws c = false)) in Hsub.
  rw /Re.replaceAll replace_ws_keeps in Hsub; [|constructor].
  change (filter _ [60%Z; 62%Z]) with [60%Z; 62%Z] in Hsub.
  etrans; [exact Hsub | apply sublist_filter].
Qed.

Lemma replace_go_0 (m : jsstring → option (nat * jsstring)) c s :
  Re.replace_go m 0 (c :: s)
  = match m (c :: s) with
    | Some (n, r) => r ++ Re.replace_go m (pred n) s
    | None => c :: Re.replace_go m 0 s
    end.
Proof. done. Qed.

Lemma replace_go_S (m : jsstring → option (nat * jsstring)) k c s :
  Re.replace_go m (S k) (c :: s) = Re.replace_go m k s.
Proof. done. Qed.

Lemma m_tag_other c s : c ≠ 60%Z → m_tag (c :: s) = None.
Proof.
  intros Hc. destruct c as [|p|p]; [done| |done].
  do 6 (try destruct p as [p|p|]); try done.
Qed.

Lemma m_tag_lt s :
  m_tag (60%Z :: s) = (i ← indexOf s (lit ">"); Some (i + 2, [32%Z])).
Proof. done. Qed.

Lemma indexOf_gt_None s : indexOf s (lit ">") = None → 62%Z ∉ s.
Proof.
  change (lit ">") with [62%Z].
  induction s as [|c s IH]; [intros _; apply not_elem_of_nil|].
  change (indexOf (c :: s) [62%Z])
    with (if (62 =? c)%Z && true then Some 0 else S <$> indexOf s [62%Z]).
  destruct (Z.eqb_spec 62 c) as [<-|Hc]; [done|].
  destruct (indexOf s [62%Z]); [done|]. intros _.
  apply not_elem_of_cons. split; [done | by apply IH].
Qed.

Lemma replace_tag_units s k c :
  c ∈ Re.replace_go m_tag k s → c ∈ s ∨ c = 32%Z.
Proof.
  revert k. induction s as [|x s IH]; intros k; [by left|].
  destruct k as [|k]; [rw replace_go_0 | rw replace_go_S].
  - destruct (m_tag (x :: s)) as [[n r]|] eqn:Hm.
    + assert (r = [32%Z]) as ->.
      { destruct (decide (x = 60%Z)) as [->|Hx]; [|by rw m_tag_other in Hm].
        rw m_tag_lt in Hm.
        destruct (indexOf s (lit ">")) as [i|]; [|done]. by injection Hm as _ <-. }
      intros [->|Hin]%elem_of_cons; [by right|].
      destruct (IH _ Hin) as [?|?]; [left; by right | by right].
    + intros [->|Hin]%elem_of_cons; [left; by left|].
      destruct (IH _ Hin) as [?|?]; [left; by right | by right].
  - intros Hin. destruct (IH _ Hin) as [?|?]; [left; by right | by right].
Qed.

(** Replacing tags leaves no [<] with a [>] after it. *)
Lemma replace_tag_tagfree s k : tagfree (Re.replace_go m_tag k s).
Proof.
  revert k. induction s as [|x s IH]; intros k.
  - by intros ?%sublist_nil_r.
  - destruct k as [|k]; [|apply IH]. rw /tagfree replace_go_0.
    destruct (decide (x = 60%Z)) as [->|Hx].
    + rw m_tag_lt. destruct (indexOf s (lit ">")) as [i|] eqn:Hi; simpl.
      * intros [Hsub|(l & [=] & _)]%sublist_cons_r. by apply (IH _ Hsub).
      * intros [Hsub|(l & [= <-] & Hsub)]%sublist_cons_r; [by apply (IH _ Hsub)|].
        apply singleton_sublist_l in Hsub.
        apply replace_tag_units in Hsub as [Hin|[=]].
        by apply (indexOf_gt_None s Hi).
    + rw m_tag_other; [|done].
      intros [Hsub|(l & [= <-] & _)]%sublist_cons_r; [by apply (IH _ Hsub) | done].
Qed.

Lemma stripHtml_trimmed (input : option jsstring) :
  (∀ c, head (stripHtml input) = Some c → is_ws c = false)
  ∧ (∀ c, last (stripHtml input) = Some c → is_ws c = false).
Proof.
  rw /stripHtml. destruct (truthy input); [|done].
  split; [apply trim_head | apply trim_last].
Qed.

Lemma stripHtml_collapsed (input : option jsstring) : collapsed (stripHtml input).
Proof.
  rw /stripHtml. destruct (truthy input); [|apply collapsed_nil]. simpl.
  match goal with |- collapsed (trim ?w) =>
    destruct (trim_infix w) as (a & b & Heq); apply (collapsed_infix a _ b)
  end.
  rw -Heq. by apply replace_ws_collapsed.
Qed.

Lemma stripHtml_tagfree (input : option jsstring) : tagfree (stripHtml input).
Proof.
  rw /stripHtml. destruct (truthy input); [|by intros ?%sublist_nil_r]. simpl.
  intros Hsub. eapply replace_ws_tagfree; [apply replace_tag_tagfree|].
  etrans; [exact Hsub | apply trim_sublist].
Qed.

(** X2. Cleaned text is in normal form: it neither starts nor ends with
    white space, its only white space is single spaces, and no [<] in it is
    followed anywhere by a [>], so no markup tag survives. An absent or
    empty input gives the empty text. *)
Theorem stripHtml_normal_form (input : option jsstring) :
  (∀ c, head (stripHtml input) = Some c → is_ws c = false)
  ∧ (∀ c, last (stripHtml input) = Some c → is_ws c = false)
  ∧ collapsed (stripHtml input)
  ∧ tagfree (stripHtml input)
  ∧ (input = None ∨ input = Some [] → stripHtml input = []).
Proof.
  split_and!.
  - apply stripHtml_trimmed.
  - apply stripHtml_trimmed.
  - apply stripHtml_collapsed.
  - apply stripHtml_tagfree.
  - by intros [->| ->].
Qed.
End clean_facts.

(** ** Length of a truncated text *)

Lemma trimStart_letters (n : nat) :
  trimStart (replicate n 97%Z) = replicate n 97%Z.
Proof. by destruct n. Qed.

Lemma trimEnd_letters (n : nat) : trimEnd (replicate n 97%Z) = replicate n 97%Z.
Proof. by rw /trimEnd reverse_replicate trimStart_letters reverse_replicate. Qed.

Lemma trim_letters (n : nat) : trim (replicate n 97%Z) = replicate n 97%Z.
Proof. by rw /trim trimStart_letters trimEnd_letters. Qed.

Lemma truncate_length (s : jsstring) (maxLen : Z) :
  (1 ≤ maxLen)%Z → (Z.of_nat (length (truncate s maxLen)) ≤ maxLen + 2)%Z.
Proof.
  intros H1.
  destruct (decide (Z.of_nat (length (trim s)) ≤ maxLen)%Z) as [Hle|Hgt].
  - rw truncate_short; [lia | done].
  - rw truncate_long; [|lia]. rw length_app /=.
    pose proof (trimEnd_length (take (Z.to_nat (maxLen - 1)) (trim s))) as Hl.
    rw length_take in Hl. lia.
Qed.

(** X3. For a bound of at least one, the result of [truncate] has at most
    [maxLen + 2] code units: up to [maxLen - 1] of text and the three units
    of the marker. The bound is attained, by [maxLen + 1] letters; a text
    that needs no cut stays within [maxLen]. *)
Theorem truncate_length_bound (s : jsstring) (maxLen : Z) :
  (1 ≤ maxLen)%Z →
  (Z.of_nat (length (truncate s maxLen)) ≤ maxLen + 2)%Z
  ∧ ((Z.of_nat (length (trim s)) ≤ maxLen)%Z →
     (Z.of_nat (length (truncate s maxLen)) ≤ maxLen)%Z)
  ∧ Z.of_nat (length (truncate (replicate (Z.to_nat maxLen + 1) 97%Z) maxLen))
    = (maxLen + 2)%Z.
Proof.
  intros H1. split_and!.
  - by apply truncate_length.
  - intros Hle. by rw truncate_short.
  - rw truncate_long trim_letters; [|rw ?trim_letters length_replicate; lia].
    rw take_replicate trimEnd_letters length_app length_replicate /=. lia.
Qed.

Lemma truncate_length_bound_witness :
  (1 ≤ 280)%Z
  ∧ (Z.of_nat (length (truncate (lit "short") 280)) ≤ 280 + 2)%Z.
Proof.
  assert (1 ≤ 280)%Z as H1 by lia.
  split; [exact H1|].
  exact (proj1 (truncate_length_bound (lit "short") 280 H1)).
Defined.

(** ** Shape of a normalised item *)

Lemma no_ws_collapsed (s : jsstring) :
  Forall (λ c, is_ws c = false) s → collapsed s.
Proof.
  intros Hs pre c post -> Hws.
  apply Forall_app in Hs as [_ [Hc _]%Forall_cons]. congruence.
Qed.

Lemma no_lt_tagfree (s : jsstring) : 60%Z ∉ s → tagfree s.
Proof.
  intros Hn Hsub. apply Hn.
  apply (elem_of_sublist [60%Z; 62%Z]); [apply list_elem_of_here | done].
Qed.

Section item_facts.
Context `{Host}.

(** X4. Every normalised item has a title that is not empty, does not
    start or end with white space, has only single spaces as white space
    and holds no markup tag; a category that is not empty; the feed's name
    and id as source; and a summary of at most 282 code units that does not
    end with white space. *)
Theorem normalizeItem_shape (feedDef : FeedDef) (item : RawEntry)
    (stripParams : list jsstring) (now : jsstring) :
  let n := normalizeItem feedDef item stripParams now in
  title n ≠ []
  ∧ (∀ c, head (title n) = Some c → is_ws c = false)
  ∧ (∀ c, last (title n) = Some c → is_ws c = false)
  ∧ collapsed (title n)
  ∧ tagfree (title n)
  ∧ category n ≠ []
  ∧ source n = feed_name feedDef
  ∧ sourceId n = feed_id feedDef
  ∧ length (summary n) ≤ 282
  ∧ (∀ c, last (summary n) = Some c → is_ws c = false).
Proof.
  intros n. subst n. simpl.
  pose proof (stripHtml_trimmed (Some (or_empty (raw_title item)))) as [Hhead Hlast].
  pose proof (stripHtml_collapsed (Some (or_empty (raw_title item)))) as Hcol.
  pose proof (stripHtml_tagfree (Some (or_empty (raw_title item)))) as Hfree.
  pose proof (truncate_length (stripHtml (Some (rawSummary item))) 280 ltac:(lia))
    as Hlen.
  split_and!.
  - by destruct (stripHtml (Some (or_empty (raw_title item)))).
  - destruct (stripHtml (Some (or_empty (raw_title item)))); [|done].
    by intros c [= <-].
  - destruct (stripHtml (Some (or_empty (raw_title item)))); [|done].
    by intros c [= <-].
  - destruct (stripHtml (Some (or_empty (raw_title item)))); [|done].
    apply no_ws_collapsed. by apply (bool_decide_unpack _).
  - destruct (stripHtml (Some (or_empty (raw_title item)))); [|done].
    apply no_lt_tagfree. by apply (bool_decide_unpack _).
  - by destruct (feed_category feedDef) as [[|c s]|].
  - done.
  - done.
  - lia.
  - destruct (decide (Z.of_nat (length (trim (stripHtml (Some (rawSummary item))))) ≤ 280)%Z).
    + rw truncate_short; [apply trim_last | done].
    + rw truncate_long; [|lia]. intros c. rw /ELLIPSIS last_app /=. by intros [= <-].
Qed.
End item_facts.

(** ** Published dates *)

Section date_facts.
Context `{Host}.

Lemma safeIsoDate_truthy (c : option jsstring) :
  truthy (safeIsoDate c) = true →
  ∃ raw t, c = Some raw ∧ raw ≠ [] ∧ Date_parse raw = Some t
           ∧ or_empty (safeIsoDate c) = Date_toISOString t.
Proof.
  rw /safeIsoDate. destruct c as [[|x raw]|]; simpl; [done| |done].
  destruct (Date_parse (x :: raw)) as [t|] eqn:Ht; simpl; [|done].
  intros Htruthy. exists (x :: raw), t. split_and!; [done..|].
  by destruct (Date_toISOString t).
Qed.

(** The first truthy element of a chain of [||] ending in [null]. *)
Lemma or_chain (l : list (option jsstring)) :
  ((∀ c, c ∈ l → truthy c = false) ∧ truthy (foldr JS.or None l) = false)
  ∨ ∃ i c, l !! i = Some c ∧ truthy c = true
           ∧ (∀ j c', j < i → l !! j = Some c' → truthy c' = false)
           ∧ foldr JS.or None l = c.
Proof.
  induction l as [|a l IH]; simpl.
  - left. split; [by intros c ?%elem_of_nil | done].
  - rw {1 3}/JS.or. destruct (truthy a) eqn:Ha.
    + right. exists 0, a. split_and!; [done..| |done]. intros j c' Hj. lia.
    + destruct IH as [[Hall Hnone]|(i & c & Hi & Hc & Hbefore & Heq)].
      * left. split; [|done]. by intros c [->|?]%elem_of_cons; [|apply Hall].
      * right. exists (S i), c. split_and!; [done..| |done].
        intros [|j] c' Hj; simpl; [by intros [= <-]|].
        apply Hbefore. lia.
Qed.

(** X5. The published field of a normalised item is the ISO rendering of
    the first date field, in the order isoDate, pubDate, published, date,
    updated, that is present, non-empty and parses (to a non-empty
    rendering); later fields are not consulted. When no field qualifies it
    is the run time. *)
Theorem published_priority (feedDef : FeedDef) (item : RawEntry)
    (stripParams : list jsstring) (now : jsstring) :
  let n := normalizeItem feedDef item stripParams now in
  let cs := dateCandidates item in
  ((∀ c, c ∈ cs → truthy (safeIsoDate c) = false) ∧ published n = now)
  ∨ ∃ i raw t,
      cs !! i = Some (Some raw) ∧ raw ≠ [] ∧ Date_parse raw = Some t
      ∧ Date_toISOString t ≠ []
      ∧ (∀ j c', j < i → cs !! j = Some c' → truthy (safeIsoDate c') = false)
      ∧ published n = Date_toISOString t.
Proof.
  intros n cs.
  assert (published n = if truthy (parsedDate item)
                        then or_empty (parsedDate item) else now) as -> by done.
  assert (parsedDate item = foldr JS.or None (safeIsoDate <$> cs)) as -> by done.
  destruct (or_chain (safeIsoDate <$> cs))
    as [[Hall ->]|(i & c & Hi & Hc & Hbefore & ->)].
  - left. split; [|done]. intros c Hin. by apply Hall, list_elem_of_fmap_2.
  - right. rw Hc. apply list_lookup_fmap_Some in Hi as (c0 & -> & Hi).
    destruct (safeIsoDate_truthy c0 Hc) as (raw & t & -> & Hraw & Ht & Hiso).
    exists i, raw, t. split_and!; [done..| | |done].
    + rw -Hiso. intros Hnil. by rw truthy_or_empty Hnil in Hc.
    + intros j c' Hj Hc'. apply (Hbefore j); [done|].
      by rw list_lookup_fmap Hc'.
Qed.
End date_facts.

(** ** Stripped parameters *)

Section strip_facts.
Context `{Host}.
Implicit Types (u : URL.t) (strip : list jsstring).

Lemma strip_all_cons p strip u :
  strip_all (p :: strip) u
  = strip_all strip (URL.searchParams_delete URL_encode p u).
Proof. done. Qed.

Lemma delete_one p (l : list (jsstring * jsstring)) :
  filter (λ kv, kv.1 ≠ p) l = filter (λ kv, kv.1 ∉ [p]) l.
Proof. apply list_filter_iff. intros kv. by rw list_elem_of_singleton. Qed.

Lemma delete_more p strip (l : list (jsstring * jsstring)) :
  filter (λ kv, kv.1 ∉ strip) (filter (λ kv, kv.1 ∉ [p]) l)
  = filter (λ kv, kv.1 ∉ p :: strip) l.
Proof.
  rw list_filter_filter. apply list_filter_iff. intros kv.
  rw !not_elem_of_cons. pose proof (not_elem_of_nil kv.1). tauto.
Qed.

(** After the loop over a non-empty list of names, the parameters are the
    original ones whose name is not listed, in their order, and the query
    is rewritten from them. *)
Lemma strip_all_nonempty strip u :
  strip ≠ [] →
  let left_over := filter (λ kv, kv.1 ∉ strip) (URL.searchParams u) in
  strip_all strip u
  = {| URL.base := URL.base u;
       URL.query := match URL.serialize URL_encode left_over with
                    | [] => None
                    | q => Some q
                    end;
       URL.searchParams := left_over;
       URL.fragment := URL.fragment u |}.
Proof.
  revert u. induction strip as [|p strip IH]; intros u Hne; [done|].
  rw strip_all_cons. cbv zeta. destruct (decide (strip = [])) as [->|Hstrip].
  - rw /strip_all /= /URL.searchParams_delete delete_one.
    by destruct (URL.serialize _ _).
  - rw IH; [|done]. cbv zeta.
    by rw /URL.searchParams_delete /= delete_one delete_more.
Qed.

(** X6. Cleaning a link depends on the set of configured names only, not
    on their order or repetition; and for a link that parses, the
    parameters left after the loop are exactly the original ones whose
    name is not configured, in their original order. *)
Theorem cleanUrl_strip_set (rawUrl : option jsstring) (s1 s2 : list jsstring) :
  (∀ p, p ∈ s1 ↔ p ∈ s2) →
  cleanUrl rawUrl s1 = cleanUrl rawUrl s2
  ∧ ∀ u, URL.searchParams (strip_all s1 u)
         = filter (λ kv, kv.1 ∉ s1) (URL.searchParams u).
Proof.
  intros Hset. split.
  - assert (∀ u, strip_all s1 u = strip_all s2 u) as Hsame.
    { intros u. destruct (decide (s1 = [])) as [Hnil|Hne1].
      - subst s1. destruct s2 as [|p s2]; [done|].
        exfalso. apply (not_elem_of_nil p), Hset, list_elem_of_here.
      - assert (s2 ≠ []) as Hne2.
        { intros ->. destruct s1 as [|p s1]; [done|].
          apply (not_elem_of_nil p), Hset, list_elem_of_here. }
        rw (strip_all_nonempty s1 u Hne1) (strip_all_nonempty s2 u Hne2).
        assert (filter (λ kv : jsstring * jsstring, kv.1 ∉ s1) (URL.searchParams u)
                = filter (λ kv : jsstring * jsstring, kv.1 ∉ s2) (URL.searchParams u))
          as -> ; [|done].
        apply list_filter_iff. intros kv. by rw Hset. }
    rw /cleanUrl. destruct (negb (truthy rawUrl)); [done|].
    destruct (URL_parse (or_empty rawUrl)) as [u|]; [|done].
    by rw -!/(strip_all _ u) Hsame.
  - intros u. destruct s1 as [|q s1].
    + change (strip_all [] u) with u.
      induction (URL.searchParams u) as [|kv l IH]; [done|].
      rw filter_cons. case_decide as Hd; [by rw -IH|].
      by apply elem_of_nil in Hd.
    + by rw (strip_all_nonempty (q :: s1) u).
Qed.
End strip_facts.

Lemma cleanUrl_strip_set_witness :
  (∀ p, p ∈ [lit "utm_source"; lit "ref"] ↔ p ∈ [lit "ref"; lit "utm_source"; lit "ref"])
  ∧ cleanUrl (H:=Demo.offline)
      (Some (lit "https://example.com/a?ref=x&id=7&utm_source=rss"))
      [lit "utm_source"; lit "ref"]
    = cleanUrl (H:=Demo.offline)
        (Some (lit "https://example.com/a?ref=x&id=7&utm_source=rss"))
        [lit "ref"; lit "utm_source"; lit "ref"].
Proof.
  assert (∀ p, p ∈ [lit "utm_source"; lit "ref"]
               ↔ p ∈ [lit "ref"; lit "utm_source"; lit "ref"]) as Hset.
  { intros p. rw !elem_of_cons. tauto. }
  split; [exact Hset|].
  exact (proj1 (cleanUrl_strip_set (H:=Demo.offline) _ _ _ Hset)).
Defined.

(** ** The loop over feeds, feed by feed *)

Section loop_facts.
Context `{Host}.
Implicit Types (defs : Defaults) (f : FeedDef) (now : jsstring)
  (x : NormalizedItem) (st : RunState).


Lemma loop_by_feed defs now st (fs : list FeedDef) :
  foldl (feedStep defs now) st fs
  = {| st_errors := st_errors st ++ (fs ≫= feedErrors defs);
       st_all := st_all st ++ (fs ≫= feedContribution defs now) |}.
Proof.
  revert st. induction fs as [|f fs IH]; intros st.
  - rw /= !app_nil_r. by destruct st.
  - rw !bind_cons.
    change (foldl (feedStep defs now) st (f :: fs))
      with (foldl (feedStep defs now) (feedStep defs now st f) fs).
    rw IH feedStep_frame /feedErrors /feedContribution.
    destruct (parseFeedFromUrl _ _ _); by rw /= -?app_assoc ?app_nil_r.
Qed.

Lemma feedErrors_ids defs (fs : list FeedDef) :
  (fs ≫= feedErrors defs)
  = (λ f, {| err_id := feed_id f; err_name := feed_name f; err_url := feed_url f;
             err_error := default [] (err_error <$> head (feedErrors defs f)) |})
    <$> filter (λ f, feedFails defs f = true) fs.
Proof.
  induction fs as [|f fs IH]; [done|].
  rw bind_cons filter_cons IH. clear IH.
  assert ((feedFails defs f = true ∧ ∃ e, feedErrors defs f = [errorRecord f e])
          ∨ (feedFails defs f = false ∧ feedErrors defs f = [])) as Hcase.
  { rw /feedFails /feedErrors.
    destruct (parseFeedFromUrl _ _ _) as [e|p]; [left | right]; eauto. }
  destruct Hcase as [[Hf [e He]]|[Hf He]].
  - rw decide_True; [|done]. by rw fmap_cons He.
  - rw decide_False; [|congruence]. by rw He.
Qed.

(** X8. The loop over feeds adds up feed by feed, in configuration order:
    the collected items are the contributions of the feeds one after the
    other, a failing feed contributing nothing, and the error list names
    exactly the failing feeds, each once, in that order. So when every feed
    fails the item list is empty, and when none fails the error list is. *)
Theorem collect_by_feed (cfg : Config) now :
  let defs := defaults cfg in
  st_all (collect cfg now) = feeds cfg ≫= feedContribution defs now
  ∧ (err_id <$> st_errors (collect cfg now))
    = (feed_id <$> filter (λ f, feedFails defs f = true) (feeds cfg))
  ∧ (err_url <$> st_errors (collect cfg now))
    = (feed_url <$> filter (λ f, feedFails defs f = true) (feeds cfg))
  ∧ ((∀ f, f ∈ feeds cfg → feedFails defs f = true) →
     st_all (collect cfg now) = []
     ∧ length (st_errors (collect cfg now)) = length (feeds cfg))
  ∧ ((∀ f, f ∈ feeds cfg → feedFails defs f = false) →
     st_errors (collect cfg now) = []).
Proof.
  intros defs. rw /collect loop_by_feed /= feedErrors_ids -!list_fmap_compose.
  split_and!; [done..| |].
  - intros Hall. split.
    + induction (feeds cfg) as [|f fs IH]; [done|].
      rw bind_cons IH; [|intros g Hg; apply Hall; by right].
      pose proof (Hall f ltac:(left)) as Hf. rw /feedFails in Hf.
      rw /feedContribution -/defs. by destruct (parseFeedFromUrl _ _ _).
    + rw length_fmap. f_equal. induction (feeds cfg) as [|f fs IH]; [done|].
      rw filter_cons decide_True; [|apply Hall; by left].
      rw IH; [done|]. intros g Hg. apply Hall. by right.
  - intros Hnone.
    induction (feeds cfg) as [|f fs IH]; [done|].
    rw filter_cons decide_False; [|rw Hnone; [done | by left]].
    apply IH. intros g Hg. apply Hnone. by right.
Qed.
End loop_facts.

(** ** What reaches the output *)

Lemma slice_0_sublist {A} (l : list A) (e : Z) : slice l 0 e `sublist_of` l.
Proof.
  rw /slice /rel_index. assert ((0 <? 0)%Z = false) as -> by done.
  rw (Z.min_l 0); [|lia]. rw drop_0. apply sublist_take.
Qed.

Section output_facts.
Context `{Host}.
Implicit Types (defs : Defaults) (f : FeedDef) (now : jsstring)
  (x : NormalizedItem) (all : list NormalizedItem).



Lemma dedupeStep_keys (m : JSMap.t (K:=option jsstring) (V:=NormalizedItem)) x :
  length (dedupeStep m x).*1 ≤ length m.*1 + 1.
Proof.
  rw /dedupeStep. destruct (JSMap.get (url x) m) as [v|] eqn:Hget.
  - destruct (_ <=? _)%Z; [rw set_keys; [|by rw Hget]|]; lia.
  - rw set_fresh; [|done]. rw fmap_app length_app.
    change (length ([(url x, x)].*1)) with 1. lia.
Qed.

Lemma dedupe_urls all :
  (url <$> dedupe all) = (foldl dedupeStep [] all).*1
  ∧ NoDup (url <$> dedupe all)
  ∧ ∀ v, v ∈ dedupe all → v ∈ all.
Proof.
  destruct (dedupe_inv_fold all) as (Hnd & Hwin & _).
  assert (url <$> dedupe all = (foldl dedupeStep [] all).*1) as Hkeys.
  { rw /dedupe /JSMap.values -list_fmap_compose. apply list_fmap_ext.
    intros i [k v] Hin%list_elem_of_lookup_2. by apply Hwin. }
  split_and!; [done | by rw Hkeys |].
  intros v ([k v'] & -> & Hin)%list_elem_of_fmap.
  destruct (Hwin _ _ Hin) as [_ [i [Hi _]]]. by apply (list_elem_of_lookup_2 _ i).
Qed.

Lemma rank_sublist defs all :
  ∃ sorted, sorted ≡ₚ all ∧ rank defs all `sublist_of` sorted.
Proof.
  exists (Array_sort newestFirst all).
  split; [apply Array_sort_Permutation | apply slice_0_sublist].
Qed.


(** X10. The metadata counts what was written and what was configured:
    [itemCount] is the length of the item list, [feedCount] the number of
    configured feeds, the error list is no longer than that and every
    record in it carries the id, name and URL of a configured feed; the
    item count never exceeds the number of collected items, nor a
    non-negative [maxTotalItems]. *)
Theorem metadata_counts (cfg : Config) now (stamp : jsstring) :
  let out := build cfg now stamp in
  itemCount (out_meta out) = length (out_news out)
  ∧ feedCount (out_meta out) = length (feeds cfg)
  ∧ generatedAt (out_meta out) = stamp
  ∧ length (errors (out_meta out)) ≤ feedCount (out_meta out)
  ∧ (∀ e, e ∈ errors (out_meta out) →
       ∃ f, f ∈ feeds cfg ∧ err_id e = feed_id f ∧ err_name e = feed_name f
            ∧ err_url e = feed_url f)
  ∧ itemCount (out_meta out) ≤ length (st_all (collect cfg now))
  ∧ ((0 ≤ maxTotalItems (defaults cfg))%Z →
     (Z.of_nat (itemCount (out_meta out)) ≤ maxTotalItems (defaults cfg))%Z).
Proof.
  intros out. subst out. rw /build /=.
  assert (st_errors (collect cfg now) = feeds cfg ≫= feedErrors (defaults cfg))
    as Herr by by rw /collect loop_by_feed.
  split_and!; [done..| | | |].
  - rw Herr. clear Herr. induction (feeds cfg) as [|f fs IH]; [done|].
    assert (length (feedErrors (defaults cfg) f) ≤ 1) as Hone
      by (rw /feedErrors; destruct (parseFeedFromUrl _ _ _); simpl; lia).
    rw bind_cons length_app. change (length (f :: fs)) with (S (length fs)). lia.
  - intros e. rw Herr. intros (f & He & Hf)%list_elem_of_bind.
    exists f. split; [done|]. rw /feedErrors in He.
    destruct (parseFeedFromUrl _ _ _); [|by apply elem_of_nil in He].
    by apply list_elem_of_singleton in He as ->.
  - destruct (rank_sublist (defaults cfg) (dedupe (st_all (collect cfg now))))
      as (sorted & Hperm & Hsub).
    apply sublist_length in Hsub. rw Hperm in Hsub.
    etrans; [exact Hsub|].
    destruct (dedupe_urls (st_all (collect cfg now))) as (Hkeys & Hnd & Hin).
    apply (f_equal length) in Hkeys. rw length_fmap in Hkeys. rw Hkeys.
    clear. induction (st_all (collect cfg now)) as [|x l IH] using rev_ind; [done|].
    rw foldl_snoc length_app. change (length [x]) with 1.
    pose proof (dedupeStep_keys (foldl dedupeStep [] l) x). lia.
  - intros Hmax. rw /rank slice_0_take; [|done]. rw length_take. lia.
Qed.
End output_facts.

(** ** Deduplication, again *)

Section dedupe_more.
Context `{Host}.
Implicit Types (x v : NormalizedItem) (all l : list NormalizedItem)
  (m : JSMap.t (K:=option jsstring) (V:=NormalizedItem)).

Lemma fold_fresh m l :
  NoDup (url <$> l) → (∀ x, x ∈ l → url x ∉ m.*1) →
  foldl dedupeStep m l = m ++ ((λ x, (url x, x)) <$> l).
Proof.
  revert m. induction l as [|x l IH]; intros m Hnd Hfresh.
  - by rw /= app_nil_r.
  - rw fmap_cons in Hnd. apply NoDup_cons in Hnd as [Hx Hnd].
    assert (JSMap.get (url x) m = None) as Hget
      by (apply get_None, Hfresh, list_elem_of_here).
    change (foldl dedupeStep m (x :: l))
      with (foldl dedupeStep (dedupeStep m x) l).
    rw {2}/dedupeStep Hget set_fresh; [|done].
    rw IH; [by rw fmap_cons -app_assoc | done |].
    intros y Hy. rw fmap_app not_elem_of_app. split.
    + apply Hfresh. by right.
    + intros Heq%list_elem_of_singleton. simpl in Heq. apply Hx. rw -Heq.
      by apply list_elem_of_fmap_2.
Qed.

Lemma fold_keys m l :
  (foldl dedupeStep m l).*1 = m.*1 ++ first_seen m.*1 (url <$> l).
Proof.
  revert m. induction l as [|x l IH]; intros m.
  - by rw /= app_nil_r.
  - change (foldl dedupeStep m (x :: l))
      with (foldl dedupeStep (dedupeStep m x) l).
    rw IH fmap_cons /=. rw {1 2}/dedupeStep.
    destruct (JSMap.get (url x) m) as [v|] eqn:Hget.
    + assert (url x ∈ m.*1) as Hin.
      { apply get_Some in Hget. by apply (list_elem_of_fmap_2 fst _ (url x, v)). }
      rw decide_True; [|done].
      destruct (_ <=? _)%Z; [rw set_keys; [|by rw Hget]|]; done.
    + rw decide_False; [|by apply get_None].
      rw set_fresh; [|done]. by rw fmap_app /= -app_assoc.
Qed.

(** X11. Deduplication lists each URL where it first appeared: the URLs of
    the result are the distinct URLs of the input in order of first
    appearance. A list whose URLs are already distinct comes back
    unchanged, so deduplicating twice is deduplicating once; and the
    result is never longer than the input. *)
Theorem dedupe_first_seen all :
  (url <$> dedupe all) = first_seen [] (url <$> all)
  ∧ (NoDup (url <$> all) → dedupe all = all)
  ∧ dedupe (dedupe all) = dedupe all
  ∧ length (dedupe all) ≤ length all.
Proof.
  destruct (dedupe_urls all) as (Hkeys & Hnd & _).
  assert (∀ l, NoDup (url <$> l) → dedupe l = l) as Hid.
  { intros l Hl. rw /dedupe /JSMap.values fold_fresh; [|done|].
    - rw app_nil_l -list_fmap_compose. apply list_fmap_id.
    - intros x _. apply not_elem_of_nil. }
  split_and!.
  - by rw Hkeys fold_keys.
  - apply Hid.
  - by apply Hid.
  - apply (f_equal length) in Hkeys. rw length_fmap in Hkeys. rw Hkeys. clear.
    induction all as [|x l IH] using rev_ind; [done|].
    rw foldl_snoc length_app. change (length [x]) with 1.
    pose proof (dedupeStep_keys (foldl dedupeStep [] l) x). lia.
Qed.
End dedupe_more.

(** ** Ranking, again *)


Section rank_more.
Context `{Host}.

End rank_more.


(** ** The configuration gate *)

Lemma slice_nil {A} (a b : Z) : slice (@nil A) a b = [].
Proof. by rw /slice drop_nil take_nil. Qed.

Section config_facts.
Context `{Host}.

(** X13. A run whose configuration does not load writes nothing and
    rejects with the value thrown. Loading fails exactly when reading the
    file throws, when parsing throws, or, with the script's own error, when
    the document is empty or its [feeds] is not an array. When it
    succeeds the feeds are those of the document, and a document without a
    [defaults] block gets 40, 700, 25000, the bot's user agent and no
    parameters to strip. *)
Theorem config_gate (file : Thrown + jsstring)
    (parse : jsstring → Thrown + option RawConfig) (now stamp : jsstring)
    (faults : Faults) (disk : Disk) :
  (∀ e, loadConfig file parse = inl e →
        run file parse now stamp faults disk = (disk, Some e))
  ∧ (∀ e, loadConfig file parse = inl e ↔
          file = inl e
          ∨ (∃ raw, file = inr raw ∧ parse raw = inl e)
          ∨ (e = config_error
             ∧ ∃ raw, file = inr raw
                      ∧ (parse raw = inr None
                         ∨ ∃ doc, parse raw = inr (Some doc)
                                  ∧ cfg_feeds doc = None)))
  ∧ (∀ cfg, loadConfig file parse = inr cfg →
        run file parse now stamp faults disk = main cfg now stamp faults disk
        ∧ ∃ raw doc, file = inr raw ∧ parse raw = inr (Some doc)
                     ∧ cfg_feeds doc = Some (feeds cfg)
                     ∧ (cfg_defaults doc = None →
                        defaults cfg
                        = {| maxItemsPerFeed := 40; maxTotalItems := 700;
                             timeoutMs := 25000;
                             userAgent :=
                               lit "AdAuctionNewsBot/1.0 (+https://github.com/)";
                             stripUrlParams := [] |})).
Proof.
  split_and!.
  - intros e He. by rw /run He.
  - intros e. rw /loadConfig. destruct file as [e0|raw].
    + split; [intros [= ->]; by left|].
      by intros [[= ->]|[(raw & [=] & _)|(_ & raw & [=] & _)]].
    + destruct (parse raw) as [e1|[doc|]] eqn:Hparse.
      * split; [intros [= ->]; right; left; by exists raw|].
        intros [[=]|[(raw' & [= <-] & Hp)|(_ & raw' & [= <-] & Hp)]];
          [congruence|].
        destruct Hp as [Hp|(doc & Hp & _)]; congruence.
      * destruct (cfg_feeds doc) as [fs|] eqn:Hfeeds.
        -- split; [done|].
           intros [[=]|[(raw' & [= <-] & Hp)|(_ & raw' & [= <-] & Hp)]];
             [congruence|].
           destruct Hp as [Hp|(doc' & Hp & Hf)]; congruence.
        -- split.
           ++ intros [= <-]. right; right. split; [done|]. exists raw.
              split; [done|]. right. by exists doc.
           ++ intros [[=]|[(raw' & [= <-] & Hp)|(-> & _)]]; [congruence | done].
      * split.
        -- intros [= <-]. right; right. split; [done|]. exists raw.
           split; [done|]. by left.
        -- intros [[=]|[(raw' & [= <-] & Hp)|(-> & _)]]; [congruence | done].
  - intros cfg Hcfg. split; [by rw /run Hcfg|]. rw /loadConfig in Hcfg.
    destruct file as [e0|raw]; [done|].
    destruct (parse raw) as [e1|[doc|]] eqn:Hparse; [done| |done].
    destruct (cfg_feeds doc) as [fs|] eqn:Hfeeds; [|done].
    injection Hcfg as <-. exists raw, doc. split_and!; [done..|].
    by intros ->.
Qed.

(** X14. An empty feed list is a valid configuration: the run fetches
    nothing and, when the file system does not fail, overwrites both files,
    with an empty item list and metadata counting no feed, no item and no
    error. *)
Theorem empty_feed_list_accepted (file : Thrown + jsstring)
    (parse : jsstring → Thrown + option RawConfig) (now stamp : jsstring)
    (faults : Faults) (disk : Disk) (raw : jsstring) (doc : RawConfig) :
  file = inr raw → parse raw = inr (Some doc) → cfg_feeds doc = Some [] →
  mkdir_fault faults = None → news_fault faults = None →
  meta_fault faults = None →
  run file parse now stamp faults disk
  = ({| news_json := Some [];
        meta_json := Some {| generatedAt := stamp; feedCount := 0;
                             itemCount := 0; errors := [] |} |}, None).
Proof.
  intros -> Hparse Hfeeds Hmk Hnews Hmeta.
  rw /run /loadConfig Hparse Hfeeds /main Hmk /persist Hnews Hmeta.
  by rw /build /collect /= /rank /dedupe /= slice_nil.
Qed.
End config_facts.

Lemma empty_feed_list_accepted_witness :
  Cases.yaml Cases.empty_yaml
  = inr (Some {| cfg_feeds := Some []; cfg_defaults := None |})
  ∧ run (H:=Demo.offline) (inr Cases.empty_yaml) Cases.yaml Fixtures.now
      Fixtures.later Fixtures.no_faults Fixtures.old_disk
    = ({| news_json := Some [];
          meta_json := Some {| generatedAt := Fixtures.later; feedCount := 0;
                               itemCount := 0; errors := [] |} |}, None).
Proof.
  assert (Cases.yaml Cases.empty_yaml
          = inr (Some {| cfg_feeds := Some []; cfg_defaults := None |}))
    as Hparse by reflexivity.
  split; [exact Hparse|].
  exact (empty_feed_list_accepted (H:=Demo.offline) (inr Cases.empty_yaml)
           Cases.yaml Fixtures.now Fixtures.later Fixtures.no_faults
           Fixtures.old_disk Cases.empty_yaml _ eq_refl Hparse eq_refl
           eq_refl eq_refl eq_refl).
Defined.


(** ** Summaries *)

Lemma collapsed_app_marker (a b : jsstring) :
  collapsed a → (∀ c, last a = Some c → is_ws c = false) →
  Forall (λ c, is_ws c = false) b → collapsed (a ++ b).
Proof.
  intros Ha Hlast Hb pre c post Heq Hws.
  apply app_eq_inv in Heq as [(k & -> & Hk)|(k & _ & ->)].
  - destruct k as [|c' k].
    + exfalso. rw app_nil_l in Hk. rw -Hk in Hb.
      apply Forall_cons in Hb as [Hc _]. congruence.
    + injection Hk as <- ->.
      destruct (Ha pre c k eq_refl Hws) as [-> Hnext]. split; [done|].
      intros d Hd. destruct k as [|e k].
      * exfalso. rw (Hlast 32%Z) in Hws; [done|]. by rw last_snoc.
      * apply Hnext. by injection Hd as ->.
  - exfalso. apply Forall_app in Hb as [_ Hb].
    apply Forall_cons in Hb as [Hc _]. congruence.
Qed.

Lemma tagfree_app_marker (a b : jsstring) :
  tagfree a → 60%Z ∉ b → 62%Z ∉ b → tagfree (a ++ b).
Proof.
  intros Ha H60 H62 Hsub. apply Ha.
  apply (sublist_filter_mono (λ c, c = 60%Z ∨ c = 62%Z)) in Hsub.
  rw filter_app in Hsub.
  assert (filter (λ c, c = 60%Z ∨ c = 62%Z) b = []) as Hb.
  { clear Hsub. induction b as [|x b IH]; [done|].
    apply not_elem_of_cons in H60 as [? ?]. apply not_elem_of_cons in H62 as [? ?].
    rw filter_cons decide_False; [by apply IH | intros [?|?]; congruence]. }
  rw Hb app_nil_r in Hsub.
  change (filter _ [60%Z; 62%Z]) with [60%Z; 62%Z] in Hsub.
  etrans; [exact Hsub | apply sublist_filter].
Qed.

Lemma kept_infix (s : jsstring) (n : nat) :
  ∃ a b, s = a ++ trimEnd (take n (trim s)) ++ b.
Proof.
  destruct (trim_infix s) as (a & b & Hs).
  destruct (trimEnd_split (take n (trim s))) as (ws & Hws & _).
  exists a, (ws ++ drop n (trim s) ++ b).
  rw {1}Hs -{1}(take_drop n (trim s)) {1}Hws. by rw -!app_assoc.
Qed.

Section summary_facts.
Context `{Host}.

(** X15. The summary of a normalised item holds no markup tag, and its
    only white space is single spaces between other characters: it does not
    start or end with white space either. *)
Theorem summary_clean (feedDef : FeedDef) (item : RawEntry)
    (stripParams : list jsstring) (now : jsstring) :
  let n := normalizeItem feedDef item stripParams now in
  tagfree (summary n)
  ∧ collapsed (summary n)
  ∧ (∀ c, head (summary n) = Some c → is_ws c = false)
  ∧ (∀ c, last (summary n) = Some c → is_ws c = false).
Proof.
  intros n. subst n. simpl.
  set (clean := stripHtml (Some (rawSummary item))).
  pose proof (stripHtml_collapsed (Some (rawSummary item))) as Hcol.
  pose proof (stripHtml_tagfree (Some (rawSummary item))) as Hfree.
  fold clean in Hcol, Hfree.
  destruct (decide (Z.of_nat (length (trim clean)) ≤ 280)%Z) as [Hle|Hgt].
  - rw truncate_short; [|done]. split_and!.
    + intros Hsub. apply Hfree. etrans; [exact Hsub | apply trim_sublist].
    + destruct (trim_infix clean) as (a & b & Heq).
      apply (collapsed_infix a _ b). by rw -Heq.
    + apply trim_head.
    + apply trim_last.
  - rw truncate_long; [|lia].
    set (kept := trimEnd (take (Z.to_nat (280 - 1)) (trim clean))).
    destruct (kept_infix clean (Z.to_nat (280 - 1))) as (a & b & Heq).
    fold kept in Heq.
    assert (collapsed kept) as Hk by (apply (collapsed_infix a _ b); by rw -Heq).
    assert (tagfree kept) as Hf.
    { intros Hsub. apply Hfree. rw Heq.
      by apply sublist_inserts_l, sublist_inserts_r. }
    assert (∀ c, last kept = Some c → is_ws c = false) as Hlast
      by apply trimEnd_last.
    split_and!.
    + apply tagfree_app_marker; [done | by apply (bool_decide_unpack _)..].
    + apply collapsed_app_marker; [done..|]. by apply (bool_decide_unpack _).
    + intros c Hc. destruct kept as [|k0 kept'] eqn:Hkept.
      * by injection Hc as <-.
      * injection Hc as <-. apply (trim_head clean).
        apply (prefix_head (k0 :: kept') (trim clean)); [|done].
        rw -Hkept /kept. etrans; [apply trimEnd_prefix | apply prefix_take].
    + intros c. rw /ELLIPSIS last_app /=. by intros [= <-].
Qed.

(** ** Keywords *)

(** X16. An empty keyword matches every text (lower-casing the empty
    string gives the empty string): in an include list it lets every item
    with a URL past the include check, and in an exclude list it stops
    every entry of the feed. *)
Theorem empty_keyword_matches_all (defs : Defaults) (feedDef : FeedDef)
    (now : jsstring) (normalized : list NormalizedItem) (it : RawEntry)
    (text : jsstring) (ks : list jsstring) :
  toLowerCase [] = [] → [] ∈ ks →
  containsAny text (Some ks) = true
  ∧ excludedByAny text (Some ks) = true
  ∧ (excludeOf feedDef = Some ks →
     entryStep defs feedDef now normalized it = normalized).
Proof.
  intros Hlow Hin.
  assert (∀ t, existsb (λ n, includes (toLowerCase t) (toLowerCase n)) ks = true)
    as Hany.
  { intros t. apply existsb_mentions. exists []. split; [done|].
    exists [], (toLowerCase t). by rw Hlow. }
  assert (ks ≠ []) as Hne by (intros ->; by apply elem_of_nil in Hin).
  assert (∀ t, excludedByAny t (Some ks) = true) as Hexc
    by (intros t; destruct ks; [done | apply Hany]).
  split_and!.
  - destruct ks; [done | apply Hany].
  - apply Hexc.
  - intros Hks. rw entryStep_unfold Hks Hexc.
    assert (nonEmpty (Some ks) = true) as -> by by destruct ks.
    assert (∀ (b1 b2 : bool) (x y : list NormalizedItem),
              (if b1 then x else if b2 then x
               else if true && true then x else y) = x) as Hif
      by by intros [] [].
    apply Hif.
Qed.
End summary_facts.

Lemma empty_keyword_matches_all_witness :
  toLowerCase (Host:=Demo.offline) [] = []
  ∧ [] ∈ [lit "gdpr"; []]
  ∧ excludedByAny (H:=Demo.offline) (lit "Quarterly earnings")
      (Some [lit "gdpr"; []]) = true.
Proof.
  assert ([] ∈ [lit "gdpr"; []]) as Hin by (right; left).
  split; [reflexivity|]. split; [exact Hin|].
  exact (proj1 (proj2 (empty_keyword_matches_all (H:=Demo.offline)
                         (Demo.defs 40 700 []) Fixtures.gated Fixtures.now []
                         (Demo.entry "t" "https://example.com/p" "" "x")
                         (lit "Quarterly earnings") [lit "gdpr"; []]
                         eq_refl Hin))).
Defined.

(** ** The front end: read items *)

Section set_facts.
Context {K : Type} `{EqDecision K}.
Implicit Types (x : K) (seen l : list K).

Lemma first_seen_elem x seen l :
  x ∈ first_seen seen l ↔ x ∈ l ∧ x ∉ seen.
Proof.
  revert seen. induction l as [|y l IH]; intros seen; simpl.
  - split; [by intros ?%elem_of_nil | by intros [?%elem_of_nil _]].
  - case_decide as Hy.
    + rw IH elem_of_cons. split; [intros [? ?]; by auto|].
      intros [[->|?] ?]; done.
    + rw !elem_of_cons IH not_elem_of_app list_elem_of_singleton. split.
      * intros [->|(? & ? & ?)]; by auto.
      * intros [[->|?] ?]; [by left|].
        destruct (decide (x = y)) as [->|]; by auto.
Qed.

Lemma first_seen_NoDup seen l : NoDup (first_seen seen l).
Proof.
  revert seen. induction l as [|y l IH]; intros seen; simpl.
  - apply NoDup_nil_2.
  - case_decide; [done|]. apply NoDup_cons. split; [|done].
    rw first_seen_elem not_elem_of_app list_elem_of_singleton.
    by intros (_ & _ & ?).
Qed.

Lemma first_seen_id seen l :
  NoDup l → (∀ x, x ∈ l → x ∉ seen) → first_seen seen l = l.
Proof.
  revert seen. induction l as [|y l IH]; intros seen Hnd Hfresh; [done|].
  apply NoDup_cons in Hnd as [Hy Hnd]. simpl.
  rw decide_False; [|apply Hfresh, list_elem_of_here].
  f_equal. apply IH; [done|]. intros x Hx.
  rw not_elem_of_app list_elem_of_singleton. split.
  - apply Hfresh. by right.
  - by intros ->.
Qed.

Lemma first_seen_length seen l : length (first_seen seen l) ≤ length l.
Proof.
  revert seen. induction l as [|y l IH]; intros seen; simpl; [done|].
  case_decide; simpl; [specialize (IH seen) | specialize (IH (seen ++ [y]))];
    lia.
Qed.
End set_facts.

Lemma filter_all {A} (P : A → Prop) `{∀ x, Decision (P x)} (l : list A) :
  (∀ x, x ∈ l → P x) → filter P l = l.
Proof.
  induction l as [|x l IH]; intros Hall; [done|].
  rw filter_cons_True; [|apply Hall, list_elem_of_here].
  f_equal. apply IH. intros y Hy. apply Hall. by right.
Qed.

Lemma slice_suffix {A} (l : list A) (n : nat) :
  n < length l →
  slice l (Z.of_nat (length l) - Z.of_nat n) (Z.of_nat (length l))
  = drop (length l - n) l.
Proof.
  intros Hn. rw /slice /rel_index.
  assert ((Z.of_nat (length l) - Z.of_nat n <? 0)%Z = false) as -> by lia.
  assert ((Z.of_nat (length l) <? 0)%Z = false) as -> by lia.
  rw Z.min_l; [|lia]. rw Z.min_l; [|lia].
  assert (Z.to_nat (Z.of_nat (length l) - Z.of_nat n) = length l - n)
    as -> by lia.
  apply take_ge. rw length_drop. lia.
Qed.

Section read_facts.
Import Front.
Implicit Types (state : State) (itemId x y : jsstring) (s l : list jsstring).

Lemma Set_of_elem x l : x ∈ Set_of l ↔ x ∈ l.
Proof.
  rw /Set_of first_seen_elem. split; [by intros [? _]|].
  intros ?. split; [done | apply not_elem_of_nil].
Qed.

Lemma Set_of_NoDup l : NoDup (Set_of l).
Proof. apply first_seen_NoDup. Qed.

Lemma Set_of_id l : NoDup l → Set_of l = l.
Proof.
  intros ?. apply first_seen_id; [done|]. intros ? _. apply not_elem_of_nil.
Qed.

Lemma Set_has_spec x s : Set_has x s = true ↔ x ∈ s.
Proof. apply bool_decide_eq_true. Qed.

Lemma Set_add_elem x y s : y ∈ Set_add x s ↔ y = x ∨ y ∈ s.
Proof.
  rw /Set_add. case_decide as Hx.
  - split; [by right | by intros [->|?]].
  - rw elem_of_app list_elem_of_singleton. tauto.
Qed.

Lemma Set_add_NoDup x s : NoDup s → NoDup (Set_add x s).
Proof.
  intros Hs. rw /Set_add. case_decide as Hx; [done|].
  apply NoDup_app. split; [done|]. split; [|apply NoDup_singleton].
  by intros y Hy ->%list_elem_of_singleton.
Qed.

Lemma Set_add_length x s : length (Set_add x s) ≤ S (length s).
Proof.
  rw /Set_add. case_decide; [lia|]. rw length_app /=. lia.
Qed.

Lemma truthy_only_elem x l : x ∈ truthy_only l ↔ x ≠ [] ∧ x ∈ l.
Proof. rw /truthy_only. apply (list_elem_of_filter (λ v : jsstring, v ≠ [])). Qed.

Lemma readSet_NoDup state : NoDup (readSetFromState state).
Proof. apply Set_of_NoDup. Qed.

Lemma readSet_truthy state : [] ∉ readSetFromState state.
Proof.
  rw /readSetFromState Set_of_elem truthy_only_elem. by intros [? _].
Qed.

Lemma readSet_clean state :
  NoDup (readIds state) → [] ∉ readIds state →
  readSetFromState state = readIds state.
Proof.
  intros Hnd Hne. rw /readSetFromState /truthy_only filter_all.
  - by apply Set_of_id.
  - by intros x Hx ->.
Qed.

Lemma write_readIds state readSet :
  readIds (writeReadSetToState state readSet)
  = drop (length readSet - MAX_READ) readSet.
Proof.
  rw /writeReadSetToState /set_readIds /=. case_decide as Hlen.
  - by apply slice_suffix.
  - assert (length readSet - MAX_READ = 0) as -> by lia. by rw drop_0.
Qed.

Lemma set_readIds_same state : set_readIds state (readIds state) = state.
Proof. by destruct state. Qed.

Lemma markRead_room state itemId :
  itemId ≠ [] → length (readSetFromState state) < MAX_READ →
  readSetFromState (markRead state itemId)
  = Set_add itemId (readSetFromState state).
Proof.
  intros Hid Hroom.
  pose proof (Set_add_length itemId (readSetFromState state)) as Hlen.
  assert (readIds (markRead state itemId)
          = Set_add itemId (readSetFromState state)) as Hids.
  { rw /markRead write_readIds.
    assert (length (Set_add itemId (readSetFromState state)) - MAX_READ = 0)
      as -> by lia.
    by rw drop_0. }
  rw -Hids. apply readSet_clean; rw Hids.
  - apply Set_add_NoDup, readSet_NoDup.
  - rw Set_add_elem. intros [?|?]; [done|]. by apply (readSet_truthy state).
Qed.

(** X17. Marking an item as read, from a state whose read set is within
    the cap of 2000, leaves the item read, keeps the stored list free of
    duplicates and of empty ids and within the cap, marks nothing else,
    forgets nothing while there is room, and is idempotent. *)
Theorem markRead_spec state itemId :
  itemId ≠ [] → length (readSetFromState state) ≤ MAX_READ →
  isRead (markRead state itemId) itemId = true
  ∧ NoDup (readIds (markRead state itemId))
  ∧ ([] ∉ readIds (markRead state itemId))
  ∧ length (readIds (markRead state itemId)) ≤ MAX_READ
  ∧ (∀ j, isRead (markRead state itemId) j = true →
       j = itemId ∨ isRead state j = true)
  ∧ (length (readSetFromState state) < MAX_READ →
     ∀ j, isRead state j = true → isRead (markRead state itemId) j = true)
  ∧ markRead (markRead state itemId) itemId = markRead state itemId.
Proof.
  intros Hid Hcap.
  assert (1 ≤ MAX_READ) as Hmax by (rw /MAX_READ; lia).
  pose proof (readSet_NoDup state) as Hnd.
  pose proof (readSet_truthy state) as Hne.
  set (s := readSetFromState state) in *.
  set (s' := Set_add itemId s).
  set (k := length s' - MAX_READ).
  assert (readIds (markRead state itemId) = drop k s') as Hids
    by apply write_readIds.
  assert (NoDup s') as Hnd' by by apply Set_add_NoDup.
  assert ([] ∉ s') as Hne'.
  { rw Set_add_elem. by intros [?|?]. }
  assert (drop k s' `sublist_of` s') as Hsub by apply sublist_drop.
  assert (NoDup (drop k s')) as Hndk by by eapply sublist_NoDup.
  assert ([] ∉ drop k s') as Hnek.
  { intros Hin. apply Hne'. by apply (elem_of_sublist _ _ _ Hin). }
  assert (readSetFromState (markRead state itemId) = drop k s') as Hset.
  { rw -Hids. apply readSet_clean; by rw Hids. }
  assert (itemId ∈ drop k s') as Hin.
  { subst k s'. rw /Set_add. case_decide as Hx.
    - assert (length s - MAX_READ = 0) as -> by lia. by rw drop_0.
    - rw length_app /= drop_app_le; [|lia].
      rw elem_of_app list_elem_of_singleton. by right. }
  assert (length (drop k s') ≤ MAX_READ) as Hlen.
  { rw length_drop. lia. }
  split; [by rw /isRead Hset Set_has_spec|].
  rw Hids. do 3 (split; [done|]).
  split; [|split].
  - intros j. rw /isRead Hset !Set_has_spec. intros Hj.
    by apply Set_add_elem, (elem_of_sublist _ _ _ Hj).
  - intros Hroom j. rw /isRead Hset !Set_has_spec. intros Hj.
    pose proof (Set_add_length itemId s).
    assert (k = 0) as -> by (subst k s'; fold s; lia).
    rw drop_0 Set_add_elem. by right.
  - rw {1}/markRead Hset.
    assert (Set_add itemId (drop k s') = drop k s') as ->
      by by rw /Set_add decide_True.
    rw /writeReadSetToState decide_False; [|lia].
    rw -Hids. apply set_readIds_same.
Qed.

Lemma markRead_spec_witness :
  isRead (markRead base (lit "1a2b3c4d")) (lit "1a2b3c4d") = true.
Proof.
  assert (lit "1a2b3c4d" ≠ []) as Hid by done.
  assert (length (readSetFromState base) ≤ MAX_READ) as Hcap
    by (rw /MAX_READ /=; lia).
  exact (proj1 (markRead_spec base (lit "1a2b3c4d") Hid Hcap)).
Defined.

End read_facts.

(** ** The front end: filters *)

Lemma bool_eq_iff (b1 b2 : bool) : (b1 = true ↔ b2 = true) → b1 = b2.
Proof. destruct b1, b2; intros [? ?]; auto; symmetry; auto. Qed.

Lemma filter_refine {A} (f g : A → bool) (P : A → Prop)
    `{∀ x, Decision (P x)} (l : list A) :
  (∀ x, x ∈ l → (g x = true ↔ P x ∧ f x = true)) →
  List.filter g l = filter P (List.filter f l).
Proof.
  induction l as [|x l IH]; intros Hall; [done|].
  assert (List.filter g l = filter P (List.filter f l)) as IH'.
  { apply IH. intros y Hy. apply Hall. by right. }
  pose proof (Hall x (list_elem_of_here _ _)) as Hx. simpl.
  destruct (g x) eqn:Hg, (f x) eqn:Hf.
  - rw filter_cons_True; [|by destruct (proj1 Hx eq_refl)]. by rw IH'.
  - by destruct (proj1 Hx eq_refl).
  - rw filter_cons_False; [done|]. intros HP.
    discriminate (proj2 Hx (conj HP eq_refl)).
  - done.
Qed.

Lemma filter_as_prop {A} (g : A → bool) (P : A → Prop)
    `{∀ x, Decision (P x)} (l : list A) :
  (∀ x, x ∈ l → (g x = true ↔ P x)) → List.filter g l = filter P l.
Proof.
  intros Hall. rw (filter_refine (λ _, true) g P).
  - f_equal. clear Hall. induction l as [|x l IH]; [done|]. simpl. by rw IH.
  - intros x Hx. rw (Hall x Hx). tauto.
Qed.

Lemma filter_sublist_mono {A} (f g : A → bool) (l : list A) :
  (∀ x, x ∈ l → f x = true → g x = true) →
  List.filter f l `sublist_of` List.filter g l.
Proof.
  induction l as [|x l IH]; intros Hall; [done|].
  assert (List.filter f l `sublist_of` List.filter g l) as IH'.
  { apply IH. intros y Hy. apply Hall. by right. }
  pose proof (Hall x (list_elem_of_here _ _)) as Hx. simpl.
  destruct (f x) eqn:Hf.
  - rw Hx; [|done]. by apply sublist_skip.
  - destruct (g x); [by apply sublist_cons | done].
Qed.

Lemma filter_elem {A} (f : A → bool) (l : list A) (x : A) :
  x ∈ List.filter f l ↔ x ∈ l ∧ f x = true.
Proof. rw !list_elem_of_In. apply filter_In. Qed.

Section filter_facts.
Import Front.
Context `{Host}.
Implicit Types (state : State) (it : NormalizedItem)
  (items : list NormalizedItem) (v w c : jsstring)
  (values sel : list jsstring).

Lemma shown_elem (f : NormalizedItem → jsstring) items c :
  c ∈ Array_sort compare_units (uniq (truthy_only (f <$> items)))
  ↔ c ≠ [] ∧ ∃ it, it ∈ items ∧ f it = c.
Proof.
  rw Array_sort_Permutation /uniq Set_of_elem truthy_only_elem
    list_elem_of_fmap.
  split; intros [? (it & ? & ?)]; (split; [done|]); by exists it.
Qed.

Lemma shown_NoDup (f : NormalizedItem → jsstring) items :
  NoDup (Array_sort compare_units (uniq (truthy_only (f <$> items)))).
Proof. rw Array_sort_Permutation. apply Set_of_NoDup. Qed.

Lemma selected_elem saved values w :
  w ∈ selectedSetOrAll saved values
  ↔ w ∈ values ∧ match saved with Some l => w ∈ l | None => True end.
Proof.
  destruct saved as [l|]; simpl; rw Set_of_elem.
  - rw list_elem_of_filter. tauto.
  - tauto.
Qed.

Lemma selected_NoDup saved values : NoDup (selectedSetOrAll saved values).
Proof. destruct saved; apply Set_of_NoDup. Qed.

Lemma Set_delete_elem v w sel : w ∈ Set_delete v sel ↔ w ≠ v ∧ w ∈ sel.
Proof. rw /Set_delete. apply (list_elem_of_filter (λ y : jsstring, y ≠ v)). Qed.

Lemma same_length_same_elements sel values w :
  NoDup sel → (∀ x, x ∈ sel → x ∈ values) → length sel = length values →
  w ∈ values → w ∈ sel.
Proof.
  intros Hnd Hsub Hlen Hw.
  assert (sel ≡ₚ values) as Hperm.
  { apply submseteq_length_Permutation; [|lia]. by apply NoDup_submseteq. }
  by rw Hperm.
Qed.

(** The selection after a checkbox changes: the box that changed follows
    its new state, every other box stays as it was. *)
Lemma onToggle_spec saved values v checked w :
  v ∈ values →
  w ∈ selectedSetOrAll
        (onToggle (selectedSetOrAll saved values) values v checked) values
  ↔ if decide (w = v) then checked = true
    else w ∈ selectedSetOrAll saved values.
Proof.
  intros Hv.
  pose proof (selected_NoDup saved values) as Hnd.
  assert (∀ x, x ∈ selectedSetOrAll saved values → x ∈ values) as Hsub.
  { intros x. rw selected_elem. by intros [? _]. }
  set (sel := selectedSetOrAll saved values) in *.
  rw /onToggle Set_of_id; [|done].
  set (next := if checked then Set_add v sel else Set_delete v sel).
  assert (NoDup next) as Hnd'.
  { subst next. destruct checked; [by apply Set_add_NoDup|].
    by apply NoDup_filter. }
  assert (∀ x, x ∈ next
               ↔ if decide (x = v) then checked = true else x ∈ sel)
    as Hnext.
  { intros x. subst next. destruct checked.
    - rw Set_add_elem. case_decide; [tauto|]. split; [by intros [?|?]|auto].
    - rw Set_delete_elem. case_decide; [|tauto].
      split; [by intros [? _] | done]. }
  assert (∀ x, x ∈ next → x ∈ values) as Hsub'.
  { intros x. rw Hnext. case_decide as Hx; [by subst x | apply Hsub]. }
  rw -Hnext /setSelection. case_decide as Hlen.
  - rw selected_elem. split.
    + intros [Hw _]. by apply (same_length_same_elements _ values).
    + intros Hw. split; [by apply Hsub' | done].
  - rw selected_elem. split; [by intros [_ ?]|].
    intros Hw. split; [by apply Hsub' | done].
Qed.

Lemma getCutoffMs_all nowTs : getCutoffMs nowTs (lit "all") = None.
Proof. done. Qed.

Lemma matchesQuery_empty it : matchesQuery it [] = true.
Proof. done. Qed.

Lemma cutoff_spec (cutoff : option Z) it :
  match cutoff with
  | Some c =>
      match parseISO (published it) with
      | Some t => (t =? 0)%Z || (t <? c)%Z
      | None => true
      end
  | None => false
  end = false
  ↔ match cutoff with
    | Some c => ∃ t, parseISO (published it) = Some t ∧ t ≠ 0%Z ∧ (c ≤ t)%Z
    | None => True
    end.
Proof.
  destruct cutoff as [c|]; [|done].
  destruct (parseISO (published it)) as [t|].
  - rw orb_false_iff Z.eqb_neq Z.ltb_ge. split.
    + intros [? ?]. by exists t.
    + by intros (? & [= <-] & ? & ?).
  - split; [done | by intros (? & ? & _)].
Qed.

Lemma passes_spec state cutoff cats srcs q it :
  passes state cutoff cats srcs q it = true
  ↔ match cutoff with
    | Some c => ∃ t, parseISO (published it) = Some t ∧ t ≠ 0%Z ∧ (c ≤ t)%Z
    | None => True
    end
    ∧ category it ∈ cats ∧ source it ∈ srcs
    ∧ matchesQuery it q = true
    ∧ (hideRead state = true → isRead state (id it) = false).
Proof.
  rw /passes -cutoff_spec -!Set_has_spec.
  destruct (match cutoff with Some _ => _ | None => _ end),
    (Set_has (category it) cats), (Set_has (source it) srcs),
    (matchesQuery it q), (hideRead state), (isRead state (id it));
    simpl; intuition congruence.
Qed.

(** X18. After the reset button every item that has a category and a
    source is listed, whatever was read or selected before; on a list
    where every item has both, nothing is filtered out. *)
Theorem reset_shows_all state nowTs items :
  toLowerCase [] = [] →
  filtered (applyFilters (resetFilters state) nowTs items)
  = filter (λ it, category it ≠ [] ∧ source it ≠ []) items
  ∧ ((∀ it, it ∈ items → category it ≠ [] ∧ source it ≠ []) →
     filtered (applyFilters (resetFilters state) nowTs items) = items).
Proof.
  intros Hlow.
  assert (filtered (applyFilters (resetFilters state) nowTs items)
          = filter (λ it, category it ≠ [] ∧ source it ≠ []) items) as Heq.
  { apply filter_as_prop. intros it Hit.
    rw passes_spec getCutoffMs_all !selected_elem !shown_elem.
    assert (normalizeQuery (query (resetFilters state)) = []) as ->
      by exact Hlow.
    rw matchesQuery_empty. split.
    - by intros (_ & ([? _] & _) & ([? _] & _) & _).
    - intros [? ?]. repeat split; try done; by exists it. }
  split; [done|]. intros Hall. rw Heq. by apply filter_all.
Qed.

End filter_facts.

Section filter_examples.
Import Front.

Lemma reset_shows_all_witness :
  filtered (applyFilters (H:=Demo.offline)
              (resetFilters (markRead base (lit "1a2b3c4d"))) 0 Shelf.items)
  = Shelf.items.
Proof.
  assert (toLowerCase (Host:=Demo.offline) [] = []) as Hlow by done.
  apply (reset_shows_all (markRead base (lit "1a2b3c4d")) 0 Shelf.items Hlow).
  intros it Hit. repeat (apply elem_of_cons in Hit as [->|Hit]; [done|]).
  by apply elem_of_nil in Hit.
Defined.

End filter_examples.

Section filter_more.
Import Front.
Context `{Host}.
Implicit Types (state : State) (it : NormalizedItem)
  (items : list NormalizedItem) (v w c range itemId : jsstring).

(** X19. Marking an item as read while read items are hidden, with room
    left in the read set, removes from the list exactly the items of that
    id. *)
Theorem read_item_hidden state nowTs items itemId :
  hideRead state = true → itemId ≠ [] →
  length (readSetFromState state) < MAX_READ →
  filtered (applyFilters (markRead state itemId) nowTs items)
  = filter (λ it, id it ≠ itemId) (filtered (applyFilters state nowTs items)).
Proof.
  intros Hhide Hid Hroom.
  pose proof (markRead_room state itemId Hid Hroom) as Hset.
  set (state' := markRead state itemId) in *.
  assert (hideRead state' = true) as Hhide' by exact Hhide.
  change (filtered (applyFilters state' nowTs items))
    with (List.filter
            (passes state' (getCutoffMs nowTs (timeRange state))
               (selectedCats (applyFilters state nowTs items))
               (selectedSources (applyFilters state nowTs items))
               (normalizeQuery (query state))) items).
  apply filter_refine. intros it Hit. rw !passes_spec Hhide Hhide'.
  assert (isRead state' (id it) = false
          ↔ id it ≠ itemId ∧ isRead state (id it) = false) as Hread.
  { rw /isRead Hset /Set_has !bool_decide_eq_false Set_add_elem. tauto. }
  split.
  - intros (? & ? & ? & ? & Hr). destruct (proj1 Hread (Hr eq_refl)).
    repeat split; done.
  - intros (? & ? & ? & ? & ? & Hr). repeat split; try done.
    intros _. apply Hread. split; [done | by apply Hr].
Qed.

Lemma getCutoffMs_other nowTs range :
  range ∉ [lit "24h"; lit "7d"; lit "30d"; lit "90d"] →
  getCutoffMs nowTs range = None.
Proof.
  rw !not_elem_of_cons. intros (? & ? & ? & ? & _).
  rw /getCutoffMs /eqb. repeat (rw bool_decide_eq_false_2; [|done]).
  by destruct (bool_decide _).
Qed.

Lemma window_sublist state nowTs items (c1 c2 : option Z) r1 r2 :
  getCutoffMs nowTs r1 = c1 → getCutoffMs nowTs r2 = c2 →
  match c1, c2 with
  | Some a, Some b => (b ≤ a)%Z
  | None, Some _ => False
  | _, None => True
  end →
  filtered (applyFilters (set_timeRange state r1) nowTs items)
  `sublist_of` filtered (applyFilters (set_timeRange state r2) nowTs items).
Proof.
  intros H1 H2 Hle.
  change (filtered (applyFilters (set_timeRange state r1) nowTs items))
    with (List.filter
            (passes state (getCutoffMs nowTs r1)
               (selectedCats (applyFilters state nowTs items))
               (selectedSources (applyFilters state nowTs items))
               (normalizeQuery (query state))) items).
  change (filtered (applyFilters (set_timeRange state r2) nowTs items))
    with (List.filter
            (passes state (getCutoffMs nowTs r2)
               (selectedCats (applyFilters state nowTs items))
               (selectedSources (applyFilters state nowTs items))
               (normalizeQuery (query state))) items).
  apply filter_sublist_mono. intros it _. rw !passes_spec H1 H2.
  intros (Hc & ?). split; [|done].
  destruct c1 as [a|], c2 as [b|]; try done.
  destruct Hc as (t & ? & ? & ?). exists t. repeat split; [done..|lia].
Qed.

(** X20. The time windows are nested: what the last 24 hours show is
    among what 7 days show, and so on up to everything; a value of the
    menu the script does not know shows everything; and an item whose
    date does not parse, or is the epoch itself, is in no window. *)
Theorem time_windows_nested state nowTs items :
  let shown range :=
    filtered (applyFilters (set_timeRange state range) nowTs items) in
  shown (lit "24h") `sublist_of` shown (lit "7d")
  ∧ shown (lit "7d") `sublist_of` shown (lit "30d")
  ∧ shown (lit "30d") `sublist_of` shown (lit "90d")
  ∧ shown (lit "90d") `sublist_of` shown (lit "all")
  ∧ (∀ range, range ∉ [lit "24h"; lit "7d"; lit "30d"; lit "90d"] →
       shown range = shown (lit "all"))
  ∧ (∀ it range, range ∈ [lit "24h"; lit "7d"; lit "30d"; lit "90d"] →
       parseISO (published it) = None ∨ parseISO (published it) = Some 0%Z →
       it ∉ shown range).
Proof.
  intros shown. subst shown. cbv beta.
  split; [|split; [|split; [|split; [|split]]]].
  - apply (window_sublist _ _ _ (Some (nowTs - 1 * oneDay)%Z)
             (Some (nowTs - 7 * oneDay)%Z)); [done..|].
    rw /oneDay. lia.
  - apply (window_sublist _ _ _ (Some (nowTs - 7 * oneDay)%Z)
             (Some (nowTs - 30 * oneDay)%Z)); [done..|].
    rw /oneDay. lia.
  - apply (window_sublist _ _ _ (Some (nowTs - 30 * oneDay)%Z)
             (Some (nowTs - 90 * oneDay)%Z)); [done..|].
    rw /oneDay. lia.
  - by apply (window_sublist _ _ _ (Some (nowTs - 90 * oneDay)%Z) None).
  - intros range Hr. apply getCutoffMs_other with (nowTs:=nowTs) in Hr.
    change (filtered (applyFilters (set_timeRange state range) nowTs items))
      with (List.filter
              (passes state (getCutoffMs nowTs range)
                 (selectedCats (applyFilters state nowTs items))
                 (selectedSources (applyFilters state nowTs items))
                 (normalizeQuery (query state))) items).
    by rw Hr.
  - intros it range Hr Hdate.
    change (filtered (applyFilters (set_timeRange state range) nowTs items))
      with (List.filter
              (passes state (getCutoffMs nowTs range)
                 (selectedCats (applyFilters state nowTs items))
                 (selectedSources (applyFilters state nowTs items))
                 (normalizeQuery (query state))) items).
    rw filter_elem passes_spec. intros (_ & Hc & _).
    assert (∃ z : Z, getCutoffMs nowTs range = Some z) as [z Hcut].
    { repeat (apply elem_of_cons in Hr as [->|Hr]; [by eexists|]).
      by apply elem_of_nil in Hr. }
    rw Hcut in Hc. destruct Hc as (t & Ht & ? & _).
    destruct Hdate as [Hd|Hd]; rw Hd in Ht; [done|]. by injection Ht as <-.
Qed.

(** X21. A filter checkbox changes one box: after the box of a listed
    category changes, that category is selected exactly when the box is
    checked, and the other categories, the sources and the lists of both
    stay as they were; unchecking a category removes from the list
    exactly the items of that category. *)
Theorem toggle_changes_one_box state nowTs items v checked :
  v ∈ shown_categories (applyFilters state nowTs items) →
  (∀ w, w ∈ selectedCats
              (applyFilters (toggleCategory state nowTs items v checked)
                 nowTs items)
        ↔ if decide (w = v) then checked = true
          else w ∈ selectedCats (applyFilters state nowTs items))
  ∧ selectedSources
      (applyFilters (toggleCategory state nowTs items v checked) nowTs items)
    = selectedSources (applyFilters state nowTs items)
  ∧ shown_categories
      (applyFilters (toggleCategory state nowTs items v checked) nowTs items)
    = shown_categories (applyFilters state nowTs items)
  ∧ filtered
      (applyFilters (toggleCategory state nowTs items v false) nowTs items)
    = filter (λ it, category it ≠ v)
        (filtered (applyFilters state nowTs items)).
Proof.
  intros Hv.
  assert (∀ b w,
            w ∈ selectedCats
                  (applyFilters (toggleCategory state nowTs items v b)
                     nowTs items)
            ↔ if decide (w = v) then b = true
              else w ∈ selectedCats (applyFilters state nowTs items))
    as Hsel.
  { intros b w. by apply (onToggle_spec (categories state)). }
  split; [apply Hsel|]. do 2 (split; [done|]).
  set (state' := toggleCategory state nowTs items v false) in *.
  change (filtered (applyFilters state' nowTs items))
    with (List.filter
            (passes state (getCutoffMs nowTs (timeRange state))
               (selectedCats (applyFilters state' nowTs items))
               (selectedSources (applyFilters state nowTs items))
               (normalizeQuery (query state))) items).
  apply filter_refine. intros it Hit. rw !passes_spec (Hsel false).
  case_decide as Hc; [|tauto].
  split; [by intros (_ & ? & _) | by intros [? _]].
Qed.

(** X22. The same for a source checkbox. *)
Theorem toggle_source_changes_one_box state nowTs items v checked :
  v ∈ shown_sources (applyFilters state nowTs items) →
  (∀ w, w ∈ selectedSources
              (applyFilters (toggleSource state nowTs items v checked)
                 nowTs items)
        ↔ if decide (w = v) then checked = true
          else w ∈ selectedSources (applyFilters state nowTs items))
  ∧ selectedCats
      (applyFilters (toggleSource state nowTs items v checked) nowTs items)
    = selectedCats (applyFilters state nowTs items)
  ∧ filtered
      (applyFilters (toggleSource state nowTs items v false) nowTs items)
    = filter (λ it, source it ≠ v)
        (filtered (applyFilters state nowTs items)).
Proof.
  intros Hv.
  assert (∀ b w,
            w ∈ selectedSources
                  (applyFilters (toggleSource state nowTs items v b)
                     nowTs items)
            ↔ if decide (w = v) then b = true
              else w ∈ selectedSources (applyFilters state nowTs items))
    as Hsel.
  { intros b w. by apply (onToggle_spec (sources state)). }
  split; [apply Hsel|]. split; [done|].
  set (state' := toggleSource state nowTs items v false) in *.
  change (filtered (applyFilters state' nowTs items))
    with (List.filter
            (passes state (getCutoffMs nowTs (timeRange state))
               (selectedCats (applyFilters state nowTs items))
               (selectedSources (applyFilters state' nowTs items))
               (normalizeQuery (query state))) items).
  apply filter_refine. intros it Hit. rw !passes_spec (Hsel false).
  case_decide as Hc; [|tauto].
  split; [by intros (_ & _ & ? & _) | by intros [? _]].
Qed.

End filter_more.

Section filter_more_examples.
Import Front.

Lemma read_item_hidden_witness :
  filtered
    (applyFilters (H:=Demo.offline)
       (markRead (set_hideRead base true) (fnv1a (lit "second"))) 0
       Shelf.items)
  = filter (λ it, id it ≠ fnv1a (lit "second"))
      (filtered
         (applyFilters (H:=Demo.offline) (set_hideRead base true) 0
            Shelf.items)).
Proof.
  assert (hideRead (set_hideRead base true) = true) as Hhide by done.
  assert (fnv1a (lit "second") ≠ []) as Hid by done.
  assert (length (readSetFromState (set_hideRead base true)) < MAX_READ)
    as Hroom by (rw /MAX_READ /=; lia).
  exact (read_item_hidden (H:=Demo.offline) (set_hideRead base true) 0
           Shelf.items (fnv1a (lit "second")) Hhide Hid Hroom).
Defined.

Lemma toggle_changes_one_box_witness :
  filtered
    (applyFilters (H:=Demo.offline)
       (toggleCategory (H:=Demo.offline) base 0 Shelf.items (lit "Ads") false)
       0 Shelf.items)
  = filter (λ it, category it ≠ lit "Ads")
      (filtered (applyFilters (H:=Demo.offline) base 0 Shelf.items)).
Proof.
  assert (lit "Ads"
          ∈ shown_categories (applyFilters (H:=Demo.offline) base 0 Shelf.items))
    as Hv.
  { apply shown_elem. split; [done|].
    exists (Shelf.entry "first" "Ads" "One" "2024-01-03T08:00:00.000Z").
    split; [apply list_elem_of_here | done]. }
  exact (proj2 (proj2 (proj2
           (toggle_changes_one_box (H:=Demo.offline) base 0 Shelf.items
              (lit "Ads") false Hv)))).
Defined.

Lemma toggle_source_changes_one_box_witness :
  filtered
    (applyFilters (H:=Demo.offline)
       (toggleSource (H:=Demo.offline) base 0 Shelf.items (lit "Two") false)
       0 Shelf.items)
  = filter (λ it, source it ≠ lit "Two")
      (filtered (applyFilters (H:=Demo.offline) base 0 Shelf.items)).
Proof.
  assert (lit "Two"
          ∈ shown_sources (applyFilters (H:=Demo.offline) base 0 Shelf.items))
    as Hv.
  { apply shown_elem. split; [done|].
    exists (Shelf.entry "second" "Privacy" "Two" "2024-01-02T08:00:00.000Z").
    split; [apply list_elem_of_further, list_elem_of_here | done]. }
  exact (proj2 (proj2
           (toggle_source_changes_one_box (H:=Demo.offline) base 0 Shelf.items
              (lit "Two") false Hv))).
Defined.

End filter_more_examples.
